(** * Active-game front end: token animation and event dispatch

    A shallow embedding of [frontend/app/activeGame.js] (and of [gameOver],
    which [onGameEnd] hands off to).  The module-level variables of the
    script, the browser's interval table and the listener list of the shared
    event source form one explicit state; every function of the script is a
    computation over that state which may throw a [TypeError] and which
    records the calls it makes to its collaborators (renderer, log, views).

    Conventions of the embedding:
    - JavaScript numbers that occur here (player ids, board positions, timer
      handles) are integers and are modelled by [Z]; [String] of a number is
      its decimal form, which is what JavaScript prints for the integers it
      represents exactly (those below 2^53 in absolute value, [safe_integer]);
    - event payloads are taken after [JSON.parse], in the shape the handlers
      index them: a move event is an array of 4-tuples, an ownership event an
      array of change objects, a building event an object keyed by position;
    - objects used as dictionaries are [gmap string _]: a JavaScript property
      key is a string, a number used as key is converted with [String]. *)

From stdpp Require Import base gmap sets list strings pretty.
From Stdlib Require Import ZArith Lia Ascii.

Open Scope string_scope.
Open Scope Z_scope.

(** ** JavaScript primitives used by the script *)

Module JS.

(** A number as produced by [parseInt]: an integer or [NaN]. *)
Inductive num : Type :=
| NaN
| Int (z : Z).

(** The values held by the untyped locals of the script. *)
Inductive jsval : Type :=
| undefined
| Num (z : Z)
| Str (s : string).

#[global] Instance num_eq_dec : EqDecision num.
Proof. solve_decision. Defined.
#[global] Instance jsval_eq_dec : EqDecision jsval.
Proof. solve_decision. Defined.

(** [String(v)]. *)
Definition ToString (v : jsval) : string :=
  match v with
  | undefined => "undefined"
  | Num z => pretty z
  | Str s => s
  end.

(** [a === b] on numbers: [NaN] is equal to nothing, itself included. *)
Definition strict_eq (a b : num) : bool :=
  match a, b with
  | Int x, Int y => bool_decide (x = y)
  | _, _ => false
  end.

(** [l.join(',')]. *)
Fixpoint join (l : list string) : string :=
  match l with
  | [] => ""
  | [x] => x
  | x :: r => x +:+ "," +:+ join r
  end.

(** [s.split(',')]: the result always has at least one element. *)
Fixpoint split (s : string) : list string :=
  match s with
  | "" => [""]
  | String c r =>
      if Ascii.eqb c ","%char then "" :: split r
      else match split r with
           | h :: t => String c h :: t
           | [] => [String c ""]
           end
  end.

(** White space skipped by [parseInt] (the ASCII part of [StrWhiteSpaceChar]:
    TAB, LF, VT, FF, CR and space). *)
Definition is_white (c : ascii) : bool :=
  let n := Ascii.N_of_ascii c in
  ((9 <=? n) && (n <=? 13) || (n =? 32))%N.

Fixpoint skip_white (s : string) : string :=
  match s with
  | String c r => if is_white c then skip_white r else s
  | "" => ""
  end.

Definition digit (c : ascii) : option Z :=
  let n := Ascii.N_of_ascii c in
  if ((48 <=? n) && (n <=? 57))%N then Some (Z.of_N n - 48) else None.

(** Value of the longest prefix of decimal digits, continuing from [acc]. *)
Fixpoint digits (acc : Z) (s : string) : Z :=
  match s with
  | String c r =>
      match digit c with
      | Some d => digits (10 * acc + d) r
      | None => acc
      end
  | "" => acc
  end.

Definition unsigned (s : string) : num :=
  match s with
  | String c _ =>
      match digit c with
      | Some _ => Int (digits 0 s)
      | None => NaN
      end
  | "" => NaN
  end.

Definition negate (n : num) : num :=
  match n with
  | NaN => NaN
  | Int z => Int (- z)
  end.

(** [parseInt(s, 10)] on a string. *)
Definition parseInt_string (s : string) : num :=
  match skip_white s with
  | String "-" r => negate (unsigned r)
  | String "+" r => unsigned r
  | r => unsigned r
  end.

(** [parseInt(v, 10)]: the argument is first converted with [String]. *)
Definition parseInt (v : jsval) : num := parseInt_string (ToString v).

End JS.

Import JS.


(** ** Event payloads *)

(** One tuple of a [playerMove] event:
    [[playerID, newPosition, oldPosition, jailed]]. *)
Record Move : Type := mkMove {
  playerID : Z;
  newPosition : Z;
  oldPosition : Z;
  jailed : bool;
}.

(** An owner object [{id, name}], or [null] for an unowned property. *)
Inductive Owner : Type :=
| null
| Owned (owner_id : Z) (owner_name : string).

(** One element of a [propertyOwnerChanges] event:
    [{property: {position, name}, oldOwner, newOwner}]. *)
Record Change : Type := mkChange {
  property_position : Z;
  property_name : string;
  oldOwner : Owner;
  newOwner : Owner;
}.

(** The value of one key of a [houseEvent] payload. *)
Record Building : Type := mkBuilding {
  houses : Z;
  hotels : Z;
}.

(** The [gameStart] payload read by [activeGame]. *)
Record StartEvent : Type := mkStartEvent {
  start_gameID : Z;
  propertyPositions : list Z;
}.

(** What the event source delivers.  The payloads of the turn, balance and
    jail events are only forwarded to collaborators and stay uninterpreted. *)
Inductive Event : Type :=
| PlayerMove (moves : list Move)
| PlayerTurn (data : string)
| PlayerBalance (data : string)
| PlayerJailed (data : string)
| PropertyOwnerChanges (changes : list Change)
| HouseEvent (buildings : list (Z * Building))
| GameEnd (winner_id : Z) (winner_name : string).

Definition event_name (e : Event) : string :=
  match e with
  | PlayerMove _ => "playerMove"
  | PlayerTurn _ => "playerTurn"
  | PlayerBalance _ => "playerBalance"
  | PlayerJailed _ => "playerJailed"
  | PropertyOwnerChanges _ => "propertyOwnerChanges"
  | HouseEvent _ => "houseEvent"
  | GameEnd _ _ => "gameEnd"
  end.

(** The callbacks the script registers on the event source. *)
Inductive Handler : Type :=
| OnPlayerMove
| OnPlayerTurn
| OnPlayerBalance
| OnPlayerJailed
| OnPropertyOwnerChanges
| OnHouseEvent
| OnGameEnd.

#[global] Instance Move_eq_dec : EqDecision Move.
Proof. solve_decision. Defined.
#[global] Instance Owner_eq_dec : EqDecision Owner.
Proof. solve_decision. Defined.
#[global] Instance Handler_eq_dec : EqDecision Handler.
Proof. solve_decision. Defined.

(** The row handed to the owned-properties view for one change; [None] is
    the [null] name of an absent owner. *)
Record ViewChange : Type := mkViewChange {
  view_property : string;
  view_oldOwner : option string;
  view_newOwner : option string;
}.

(** Calls to collaborators outside the script (renderer, log, side panes,
    DOM), in the order they are made. *)
Inductive Effect : Type :=
| LogMoveEvent (moves : list Move)
| LogTurnEvent (data : string)
| LogBalanceEvent (data : string)
| LogJailEvent (data : string)
| LogPropertyEvent (changes : list Change)
| TurnDetails (data : string)
| BalanceDetails (data : string)
| JailedPlayer (data : string)
| MovePlayer (player : jsval) (position : Z) (token : option string)
| EnableBuyPropertyButton (game : jsval) (player : Z) (position : Z)
| PropertyViewUpdate (rows : list ViewChange)
| ConsoleLog (line : string)
| DisplayBuildings (nhouses nhotels : gmap string Z)
| SetBoardCanvas
| AppendCanvas (canvasID : string) (appendToNode : string) (layer : string)
| DrawBoardImage (src : string)
| GenerateUserDetails
| NewOwnedPropertiesView
| GenerateGameLog
| RemoveGameLog
| RemoveUserDetailsPane
| RemoveContentChildren
| AppendGameOver (paragraph : string).

(** ** State *)

(** [{current, end}], the value stored per player in [playerPositions]. *)
Record Position : Type := mkPosition {
  current : Z;
  end_ : num;
}.

(** The module-level variables of the script, followed by the parts of the
    browser the script acts on: the table of armed intervals with the next
    handle [setInterval] returns, the listeners of the shared event source in
    registration order, and the [user_id] field of the identity cookie. *)
Record State : Type := mkState {
  playerTokenInformation : gmap string (option string);
  playerPositions : gmap string Position;
  timer : option positive;
  currentPlayer : jsval;
  propertyView : bool;
  currentHouses : gmap string Z;
  currentHotels : gmap string Z;
  propertyOwners : gmap string Owner;
  gameID : jsval;
  intervals : gset positive;
  nextHandle : positive;
  listeners : list (string * Handler);
  user_id : jsval;
}.

(** The state when the script is loaded, for a page whose cookie holds
    [uid]. *)
Definition initial (uid : jsval) : State :=
  mkState ∅ ∅ None (Str "") false ∅ ∅ ∅ undefined ∅ 1%positive [] uid.

Definition set_playerTokenInformation (f : gmap string (option string) → gmap string (option string)) (s : State) : State :=
  mkState (f (playerTokenInformation s)) (playerPositions s) (timer s) (currentPlayer s) (propertyView s) (currentHouses s) (currentHotels s) (propertyOwners s) (gameID s) (intervals s) (nextHandle s) (listeners s) (user_id s).
Definition set_playerPositions (f : gmap string Position → gmap string Position) (s : State) : State :=
  mkState (playerTokenInformation s) (f (playerPositions s)) (timer s) (currentPlayer s) (propertyView s) (currentHouses s) (currentHotels s) (propertyOwners s) (gameID s) (intervals s) (nextHandle s) (listeners s) (user_id s).
Definition set_timer (v : option positive) (s : State) : State :=
  mkState (playerTokenInformation s) (playerPositions s) v (currentPlayer s) (propertyView s) (currentHouses s) (currentHotels s) (propertyOwners s) (gameID s) (intervals s) (nextHandle s) (listeners s) (user_id s).
Definition set_currentPlayer (v : jsval) (s : State) : State :=
  mkState (playerTokenInformation s) (playerPositions s) (timer s) v (propertyView s) (currentHouses s) (currentHotels s) (propertyOwners s) (gameID s) (intervals s) (nextHandle s) (listeners s) (user_id s).
Definition set_propertyView (v : bool) (s : State) : State :=
  mkState (playerTokenInformation s) (playerPositions s) (timer s) (currentPlayer s) v (currentHouses s) (currentHotels s) (propertyOwners s) (gameID s) (intervals s) (nextHandle s) (listeners s) (user_id s).
Definition set_currentHouses (f : gmap string Z → gmap string Z) (s : State) : State :=
  mkState (playerTokenInformation s) (playerPositions s) (timer s) (currentPlayer s) (propertyView s) (f (currentHouses s)) (currentHotels s) (propertyOwners s) (gameID s) (intervals s) (nextHandle s) (listeners s) (user_id s).
Definition set_currentHotels (f : gmap string Z → gmap string Z) (s : State) : State :=
  mkState (playerTokenInformation s) (playerPositions s) (timer s) (currentPlayer s) (propertyView s) (currentHouses s) (f (currentHotels s)) (propertyOwners s) (gameID s) (intervals s) (nextHandle s) (listeners s) (user_id s).
Definition set_propertyOwners (f : gmap string Owner → gmap string Owner) (s : State) : State :=
  mkState (playerTokenInformation s) (playerPositions s) (timer s) (currentPlayer s) (propertyView s) (currentHouses s) (currentHotels s) (f (propertyOwners s)) (gameID s) (intervals s) (nextHandle s) (listeners s) (user_id s).
Definition set_gameID (v : jsval) (s : State) : State :=
  mkState (playerTokenInformation s) (playerPositions s) (timer s) (currentPlayer s) (propertyView s) (currentHouses s) (currentHotels s) (propertyOwners s) v (intervals s) (nextHandle s) (listeners s) (user_id s).
Definition set_intervals (f : gset positive → gset positive) (s : State) : State :=
  mkState (playerTokenInformation s) (playerPositions s) (timer s) (currentPlayer s) (propertyView s) (currentHouses s) (currentHotels s) (propertyOwners s) (gameID s) (f (intervals s)) (nextHandle s) (listeners s) (user_id s).
Definition set_nextHandle (v : positive) (s : State) : State :=
  mkState (playerTokenInformation s) (playerPositions s) (timer s) (currentPlayer s) (propertyView s) (currentHouses s) (currentHotels s) (propertyOwners s) (gameID s) (intervals s) v (listeners s) (user_id s).
Definition set_listeners (f : list (string * Handler) → list (string * Handler)) (s : State) : State :=
  mkState (playerTokenInformation s) (playerPositions s) (timer s) (currentPlayer s) (propertyView s) (currentHouses s) (currentHotels s) (propertyOwners s) (gameID s) (intervals s) (nextHandle s) (f (listeners s)) (user_id s).

(** ** Computations of the script *)

(** The result of running a piece of the script: [returned] is [None] when a
    [TypeError] was thrown, [after] is the state at that point (assignments
    made before a throw persist) and [calls] the collaborator calls made. *)
Record Outcome (A : Type) : Type := mkOutcome {
  returned : option A;
  after : State;
  calls : list Effect;
}.
Arguments mkOutcome {A} _ _ _.
Arguments returned {A} _.
Arguments after {A} _.
Arguments calls {A} _.

Definition Script (A : Type) : Type := State → Outcome A.

#[global] Instance Script_ret : MRet Script :=
  λ A a s, mkOutcome (Some a) s [].

(** The calls [c] made before the outcome [r] was reached. *)
Definition after_calls {A : Type} (c : list Effect) (r : Outcome A) : Outcome A :=
  match r with
  | mkOutcome a s c' => mkOutcome a s (c ++ c')%list
  end.

#[global] Instance Script_bind : MBind Script :=
  λ A B f m s,
    match m s with
    | mkOutcome (Some a) s' c => after_calls c (f a s')
    | mkOutcome None s' c => mkOutcome None s' c
    end.

Definition throw {A : Type} : Script A := λ s, mkOutcome None s [].
Definition gets {A : Type} (f : State → A) : Script A := λ s, mkOutcome (Some (f s)) s [].
Definition modify (f : State → State) : Script unit := λ s, mkOutcome (Some ()) (f s) [].
Definition call (e : Effect) : Script unit := λ s, mkOutcome (Some ()) s [e].

(** Reading a member of [o]: a [TypeError] when [o] is [undefined]. *)
Definition member {A : Type} (o : option A) : Script A :=
  match o with
  | Some a => mret a
  | None => throw
  end.

(** [for] loop over the elements of an array. *)
Fixpoint for_each {A : Type} (body : A → Script unit) (l : list A) : Script unit :=
  match l with
  | [] => mret ()
  | x :: r => body x ;; for_each body r
  end.

(** ** The browser's timers and the event source *)

(** [setInterval(animate, 500)]: arms a new interval and returns its handle;
    handles are never reused. *)
Definition setInterval : Script positive :=
  h ← gets nextHandle;
  modify (set_intervals (λ i, i ∪ {[h]})) ;;
  modify (set_nextHandle (h + 1)%positive) ;;
  mret h.

(** [clearInterval(t)]; [t] is [None] while [timer] still holds its initial
    [''], which is the handle of no interval. *)
Definition clearInterval (t : option positive) : Script unit :=
  match t with
  | Some h => modify (set_intervals (λ i, i ∖ {[h]}))
  | None => mret ()
  end.

(** [eventSource.addEventListener(type, callback)]: a callback already
    registered for the type is not registered twice. *)
Definition addEventListener (type : string) (callback : Handler) : Script unit :=
  modify (set_listeners (λ l,
    if bool_decide ((type, callback) ∈ l) then l else (l ++ [(type, callback)])%list)).

(** [eventSource.removeEventListener(type, callback)]. *)
Definition removeEventListener (type : string) (callback : Handler) : Script unit :=
  modify (set_listeners (filter (λ x, x ≠ (type, callback)))).

(** ** The script *)

(** The first comma-separated fields of [String(JSON.parse(data))] for a move
    payload: arrays are joined with commas at every level. *)
Definition Move_fields (m : Move) : list string :=
  [pretty (playerID m); pretty (newPosition m); pretty (oldPosition m);
   if jailed m then "true" else "false"].

Definition String_moves (moves : list Move) : string :=
  join (map (λ m, join (Move_fields m)) moves).

(** [items[i]] *)
Definition item (items : list string) (i : nat) : jsval :=
  match items !! i with
  | Some s => Str s
  | None => undefined
  end.

(** [playerPositions[p]], about to be dereferenced. *)
Definition position_of (p : jsval) : Script Position :=
  s ← gets playerPositions;
  member (s !! ToString p).

(** [playerPositions[p].current = v] and [playerPositions[p].end = v] on an
    existing entry. *)
Definition set_current (p : jsval) (v : Z) : Script unit :=
  modify (set_playerPositions (alter (λ pos, mkPosition v (end_ pos)) (ToString p))).

Definition set_end (p : jsval) (v : num) : Script unit :=
  modify (set_playerPositions (alter (λ pos, mkPosition (current pos) v) (ToString p))).

(** [playerTokenInformation[p]] *)
Definition token_of (p : jsval) : Script (option string) :=
  t ← gets playerTokenInformation;
  mret (t !! ToString p ≫= λ x, x).

Definition startAnimation : Script unit :=
  h ← setInterval;
  modify (set_timer (Some h)).

Definition animate : Script unit :=
  cp ← gets currentPlayer;
  pos ← position_of cp;
  if negb (strict_eq (end_ pos) (Int 99)) then
    set_current cp (current pos + 1) ;;
    let nextPosition := current pos + 1 in
    nextPosition ←
      (if 39 <? nextPosition
       then set_current cp (nextPosition - 40) ;; mret (nextPosition - 40)
       else mret nextPosition);
    token ← token_of cp;
    call (MovePlayer cp nextPosition token) ;;
    pos' ← position_of cp;
    if strict_eq (Int (current pos')) (end_ pos') then
      t ← gets timer;
      clearInterval t ;;
      modify (set_currentPlayer (Str ""))
    else mret ()
  else
    token ← token_of cp;
    call (MovePlayer cp 99 token) ;;
    set_current cp 99 ;;
    t ← gets timer;
    clearInterval t ;;
    modify (set_currentPlayer (Str "")).

Definition onPlayerMove (moves : list Move) : Script unit :=
  call (LogMoveEvent moves) ;;
  let move := String_moves moves in
  let items := split move in
  let player := item items 0 in
  modify (set_currentPlayer player) ;;
  (if bool_decide (item items 2 = Str "-1")
   then _ ← position_of player; set_current player 9
   else mret ()) ;;
  let endPosition :=
    if bool_decide (item items 1 = Str "-1") then Num 99 else item items 1 in
  _ ← position_of player;
  set_end player (parseInt endPosition) ;;
  startAnimation ;;
  first ← member (moves !! 0%nat);
  uid ← gets user_id;
  if strict_eq (Int (playerID first)) (parseInt uid) then
    owners ← gets propertyOwners;
    let key := pretty (newPosition first) in
    if bool_decide (is_Some (owners !! key)) && bool_decide (owners !! key = Some null)
    then
      g ← gets gameID;
      call (EnableBuyPropertyButton g (playerID first) (newPosition first))
    else mret ()
  else mret ().

Definition onPlayerTurn (data : string) : Script unit :=
  call (TurnDetails data) ;;
  call (LogTurnEvent data).

Definition onPlayerBalance (data : string) : Script unit :=
  call (BalanceDetails data) ;;
  call (LogBalanceEvent data).

Definition onPlayerJailed (data : string) : Script unit :=
  call (JailedPlayer data) ;;
  call (LogJailEvent data).

Definition owner_name_of (o : Owner) : option string :=
  match o with
  | null => None
  | Owned _ n => Some n
  end.

Definition view_change (change : Change) : ViewChange :=
  mkViewChange (property_name change)
    (owner_name_of (oldOwner change)) (owner_name_of (newOwner change)).

Definition onPropertyOwnerChanges (eventData : list Change) : Script unit :=
  first ← member (eventData !! 0%nat);
  modify (set_propertyOwners (<[pretty (property_position first) := newOwner first]>)) ;;
  view ← gets propertyView;
  (if view : bool then call (PropertyViewUpdate (map view_change eventData))
   else throw) ;;
  call (LogPropertyEvent eventData).

Definition onHouseEvent (buildings : list (Z * Building)) : Script unit :=
  for_each (λ kv : Z * Building,
    let key := pretty (fst kv) in
    modify (set_currentHouses (<[key := houses (snd kv)]>)) ;;
    modify (set_currentHotels (<[key := hotels (snd kv)]>)) ;;
    call (ConsoleLog ("Position:" +:+ key)) ;;
    call (ConsoleLog ("Houses:" +:+ pretty (houses (snd kv)))) ;;
    call (ConsoleLog ("Hotels:" +:+ pretty (hotels (snd kv))))) buildings ;;
  h ← gets currentHouses;
  t ← gets currentHotels;
  call (DisplayBuildings h t).

Definition createCanvas (canvasID appendToNode layerNumber : string) : Script unit :=
  call (AppendCanvas canvasID appendToNode layerNumber).

Definition images : list string := ["hat.png"; "car.png"; "ship.png"; "duck.png"].

(** The loop of [displayBoard], from index [i] on. *)
Fixpoint displayBoard_loop (i : nat) (playerList : list Z) : Script unit :=
  match playerList with
  | [] => mret ()
  | p :: rest =>
      createCanvas (pretty p) "content" (pretty (Z.of_nat i + 2)) ;;
      modify (set_playerTokenInformation (<[pretty p := images !! i]>)) ;;
      modify (set_playerPositions (<[pretty p := mkPosition 0 (Int 0)]>)) ;;
      token ← token_of (Num p);
      call (MovePlayer (Num p) 0 token) ;;
      displayBoard_loop (S i) rest
  end.

Definition displayBoard (playerList : list Z) : Script unit :=
  call SetBoardCanvas ;;
  createCanvas "buildingLayer" "content" "1" ;;
  displayBoard_loop 0 playerList ;;
  createCanvas "game-info" "content" (join (map pretty playerList) +:+ "2") ;;
  call (DrawBoardImage "uk.jpg").

Definition enableActiveGameListeners : Script unit :=
  addEventListener "playerMove" OnPlayerMove ;;
  addEventListener "playerTurn" OnPlayerTurn ;;
  addEventListener "playerBalance" OnPlayerBalance ;;
  addEventListener "playerJailed" OnPlayerJailed ;;
  addEventListener "propertyOwnerChanges" OnPropertyOwnerChanges ;;
  addEventListener "houseEvent" OnHouseEvent ;;
  addEventListener "gameEnd" OnGameEnd.

Definition disableActiveGameListeners : Script unit :=
  removeEventListener "playerMove" OnPlayerMove ;;
  removeEventListener "playerTurn" OnPlayerTurn ;;
  removeEventListener "playerBalance" OnPlayerBalance ;;
  removeEventListener "propertyOwnerChanges" OnPropertyOwnerChanges ;;
  removeEventListener "houseEvent" OnHouseEvent ;;
  removeEventListener "gameEnd" OnGameEnd.

(** [gameOver] of the game-over page, with [createGameOverHTML] inlined. *)
Definition gameOver (winner_id : Z) (winner_name : string) : Script unit :=
  call RemoveGameLog ;;
  call RemoveUserDetailsPane ;;
  call RemoveContentChildren ;;
  uid ← gets user_id;
  call (AppendGameOver
          (if strict_eq (Int winner_id) (parseInt uid) then "You win!"
           else "You lose – " +:+ winner_name +:+ " won!")).

Definition onGameEnd (winner_id : Z) (winner_name : string) : Script unit :=
  disableActiveGameListeners ;;
  gameOver winner_id winner_name.

(** The synchronous part of [activeGame]. *)
Definition activeGame (playerList : list Z) (startEvent : StartEvent) : Script unit :=
  modify (set_gameID (Num (start_gameID startEvent))) ;;
  for_each (λ p, modify (set_propertyOwners (<[pretty p := null]>)))
    (propertyPositions startEvent) ;;
  displayBoard playerList ;;
  call GenerateUserDetails.

(** The callback [activeGame] passes to [generateUserDetails], run once the
    user-details pane is ready. *)
Definition activeGame_callback : Script unit :=
  modify (set_propertyView true) ;;
  call NewOwnedPropertiesView ;;
  call GenerateGameLog ;;
  enableActiveGameListeners.

(** A session start: [activeGame] followed by its callback. *)
Definition startSession (playerList : list Z) (startEvent : StartEvent) : Script unit :=
  activeGame playerList startEvent ;;
  activeGame_callback.

(** ** Dispatch *)

(** The body of a registered callback on a delivered event.  Each callback is
    registered for the one event name whose payload it reads; a payload of
    another shape is a malformed event, on which the callback throws. *)
Definition run_handler (h : Handler) (e : Event) : Script unit :=
  match h, e with
  | OnPlayerMove, PlayerMove moves => onPlayerMove moves
  | OnPlayerTurn, PlayerTurn data => onPlayerTurn data
  | OnPlayerBalance, PlayerBalance data => onPlayerBalance data
  | OnPlayerJailed, PlayerJailed data => onPlayerJailed data
  | OnPropertyOwnerChanges, PropertyOwnerChanges changes => onPropertyOwnerChanges changes
  | OnHouseEvent, HouseEvent buildings => onHouseEvent buildings
  | OnGameEnd, GameEnd i n => onGameEnd i n
  | _, _ => throw
  end.

(** A callback run by the browser: an exception it throws ends the callback
    and is reported; the state reached and the calls made so far remain. *)
Definition run_callback (c : Script unit) (s : State) : State * list Effect :=
  let r := c s in (after r, calls r).

(** The callbacks registered for an event name, in registration order. *)
Definition registered (type : string) (s : State) : list Handler :=
  (filter (λ x, fst x = type) (listeners s)).*2.

(** Delivery of an event by the event source: the callbacks registered for
    its name when delivery starts run in order, except those removed in the
    meantime. *)
Fixpoint deliver_to (hs : list Handler) (e : Event) (s : State) : State * list Effect :=
  match hs with
  | [] => (s, [])
  | h :: rest =>
      if bool_decide ((event_name e, h) ∈ listeners s) then
        let '(s1, c1) := run_callback (run_handler h e) s in
        let '(s2, c2) := deliver_to rest e s1 in
        (s2, (c1 ++ c2)%list)
      else deliver_to rest e s
  end.

Definition deliver (e : Event) (s : State) : State * list Effect :=
  deliver_to (registered (event_name e) s) e s.

(** One firing of interval [h]: [animate] runs if the interval is armed. *)
Definition tick (h : positive) (s : State) : State * list Effect :=
  if bool_decide (h ∈ intervals s) then run_callback animate s else (s, []).

(** [n] successive firings of interval [h]. *)
Fixpoint ticks (h : positive) (n : nat) (s : State) : State * list Effect :=
  match n with
  | O => (s, [])
  | S k =>
      let '(s1, c1) := tick h s in
      let '(s2, c2) := ticks h k s1 in
      (s2, (c1 ++ c2)%list)
  end.

(** What can happen between two states of a page: an interval fires, or the
    event source invokes one of the callbacks. *)
Inductive Input : Type :=
| Tick (h : positive)
| Invoke (h : Handler) (e : Event).

Definition step (i : Input) (s : State) : State :=
  match i with
  | Tick h => fst (tick h s)
  | Invoke h e => fst (run_callback (run_handler h e) s)
  end.

Definition run (inputs : list Input) (s : State) : State :=
  foldl (λ s i, step i s) s inputs.

(** ** Predicates used in the statements *)

(** A string without a comma: one field of a split. *)
Fixpoint comma_free (s : string) : Prop :=
  match s with
  | "" => True
  | String c r => c ≠ ","%char ∧ comma_free r
  end.

(** The animation of player [p] towards cell [t] is under way, driven by
    interval [h], with the token on cell [c]. *)
Definition animating (s : State) (h : positive) (p : jsval) (c t : Z) : Prop :=
  currentPlayer s = p ∧
  playerPositions s !! ToString p = Some (mkPosition c (Int t)) ∧
  timer s = Some h ∧
  h ∈ intervals s.

(** The animation of player [p] has come to rest on [t]: the stored position
    equals the target, interval [h] is cancelled and the marker is cleared. *)
Definition stopped (s : State) (h : positive) (p : jsval) (t : Z) : Prop :=
  playerPositions s !! ToString p = Some (mkPosition t (Int t)) ∧
  currentPlayer s = Str "" ∧
  h ∉ intervals s.

(** The animation stops after exactly [n] firings of interval [h]. *)
Definition stops_after (s : State) (h : positive) (p : jsval) (t : Z) (n : nat) : Prop :=
  stopped (fst (ticks h n s)) h p t ∧
  ∀ k, (k < n)%nat → ¬ stopped (fst (ticks h k s)) h p t.

(** [playerTokenInformation[p]] in state [s]. *)
Definition token_in (s : State) (p : jsval) : option string :=
  playerTokenInformation s !! ToString p ≫= λ x, x.

(** An input other than a [playerMove] callback. *)
Definition not_a_move (i : Input) : Prop :=
  match i with
  | Invoke OnPlayerMove _ => False
  | _ => True
  end.

(** [s'] has the animation variables and the interval table of [s]. *)
Definition same_animation (s s' : State) : Prop :=
  playerPositions s' = playerPositions s ∧
  currentPlayer s' = currentPlayer s ∧
  timer s' = timer s ∧
  intervals s' = intervals s ∧
  nextHandle s' = nextHandle s.

(** Handles of armed intervals were all returned by [setInterval]. *)
Definition handles_allocated (s : State) : Prop :=
  ∀ h, h ∈ intervals s → (h < nextHandle s)%positive.

(** The states of a page: the script is loaded, sessions start, and between
    them intervals fire and callbacks are invoked. *)
Inductive reachable : State → Prop :=
| reachable_load uid : reachable (initial uid)
| reachable_start players startEvent s :
    reachable s → reachable (after (startSession players startEvent s))
| reachable_step i s : reachable s → reachable (step i s).

(** Two move payloads that differ at most in the jailed flags. *)
Definition same_but_jailed (a b : list Move) : Prop :=
  map (λ m, (playerID m, newPosition m, oldPosition m)) a
  = map (λ m, (playerID m, newPosition m, oldPosition m)) b.

(** Every stored position is a cell of the board. *)
Definition on_board (s : State) : Prop :=
  ∀ k pos, playerPositions s !! k = Some pos → 0 ≤ current pos ≤ 39.

(** No stored target is the jail value. *)
Definition no_jail_target (s : State) : Prop :=
  ∀ k pos, playerPositions s !! k = Some pos → end_ pos ≠ Int 99.

(** The integers a JavaScript number represents exactly
    ([Number.isSafeInteger]); [String] prints them in decimal, digit for
    digit, and [parseInt] reads that form back. *)
Definition safe_integer (z : Z) : Prop := - 2 ^ 53 < z < 2 ^ 53.

(** A move tuple whose id and positions are safe integers. *)
Definition safe_move (m : Move) : Prop :=
  safe_integer (playerID m) ∧ safe_integer (newPosition m) ∧
  safe_integer (oldPosition m).


(** An input whose move payload, if it carries one, has safe tuples only. *)
Definition safe_input (i : Input) : Prop :=
  match i with
  | Invoke _ (PlayerMove moves) => Forall safe_move moves
  | _ => True
  end.

(** The states of a page whose sessions start with safe player ids and whose
    move events carry safe ids and positions. *)
Inductive reachable_safe : State → Prop :=
| reachable_safe_load uid : reachable_safe (initial uid)
| reachable_safe_start players startEvent s :
    Forall safe_integer players →
    reachable_safe s → reachable_safe (after (startSession players startEvent s))
| reachable_safe_step i s :
    safe_input i → reachable_safe s → reachable_safe (step i s).

(** Every stored player is keyed by the decimal form of a safe integer id,
    has a safe integer (not [NaN]) as target, and has an entry in
    [playerTokenInformation]. *)
Definition players_wellformed (s : State) : Prop :=
  ∀ k pos, playerPositions s !! k = Some pos →
    (∃ z : Z, safe_integer z ∧ k = pretty z) ∧
    (∃ t, safe_integer t ∧ end_ pos = Int t) ∧
    is_Some (playerTokenInformation s !! k).

(** ** A concrete session

    Players 1 and 2, ownable positions 1, 3 and 6, game 7, seen from the page
    of user 1. *)
Definition session : State :=
  after (startSession [1; 2] (mkStartEvent 7 [1; 3; 6]) (initial (Str "1"))).

(** Player 1 has been told to move from cell 0 to cell 3. *)
Definition moved : State :=
  fst (deliver (PlayerMove [mkMove 1 3 0 false]) session).

(** Player 1 has been sent to jail. *)
Definition jail_bound : State :=
  fst (deliver (PlayerMove [mkMove 1 (-1) 3 false]) session).

(** The interval armed for that move has fired once. *)
Definition jailed_state : State := fst (tick 1 jail_bound).

(** * Properties of the primitives *)

Example split_move : split "1,5,0,false" = ["1"; "5"; "0"; "false"].
Proof. reflexivity. Qed.

Example split_empty : split "" = [""].
Proof. reflexivity. Qed.

Example parseInt_minus_one : parseInt (Str "-1") = Int (-1).
Proof. reflexivity. Qed.

Example parseInt_undefined : parseInt undefined = NaN.
Proof. reflexivity. Qed.

Example parseInt_prefix : parseInt (Str " 12px") = Int 12.
Proof. reflexivity. Qed.

Example String_moves_two :
  String_moves [mkMove 1 5 0 false; mkMove 2 (-1) 7 true] = "1,5,0,false,2,-1,7,true".
Proof. by vm_compute. Qed.

Lemma split_nonempty s : ∃ h t, split s = h :: t.
Proof.
  induction s as [|c r [h [t IH]]]; simpl; [by eauto|].
  destruct (Ascii.eqb c ","); [by eauto|]. rewrite IH. by eauto.
Qed.

Lemma split_comma_free s : comma_free s → split s = [s].
Proof.
  induction s as [|c r IH]; simpl; [done|].
  intros [Hc Hr]. destruct (Ascii.eqb_spec c ","); [done|].
  by rewrite (IH Hr).
Qed.

Lemma split_field a r : comma_free a → split (a +:+ "," +:+ r) = a :: split r.
Proof.
  induction a as [|c a IH]; simpl; [done|].
  intros [Hc Ha]. destruct (Ascii.eqb_spec c ","); [done|].
  by rewrite (IH Ha).
Qed.

Lemma pretty_N_char_digit x : (x < 10)%N → digit (pretty_N_char x) = Some (Z.of_N x).
Proof.
  intros Hx.
  assert (x = 0 ∨ x = 1 ∨ x = 2 ∨ x = 3 ∨ x = 4 ∨ x = 5 ∨ x = 6 ∨ x = 7
          ∨ x = 8 ∨ x = 9)%N as Hc by lia.
  repeat (destruct Hc as [-> | Hc]; [reflexivity|]). by subst.
Qed.

Lemma digit_not_comma c d : digit c = Some d → c ≠ ","%char.
Proof. intros H ->. discriminate. Qed.

Lemma digit_not_white c d : digit c = Some d → is_white c = false.
Proof.
  unfold digit, is_white. set (n := N_of_ascii c).
  destruct (_ && _)%bool eqn:E; [|done]. intros _.
  apply andb_true_iff in E as [E1 E2].
  apply N.leb_le in E1. apply N.leb_le in E2.
  apply orb_false_iff; split.
  - apply andb_false_iff. right. apply N.leb_gt. lia.
  - apply N.eqb_neq. lia.
Qed.

Lemma pretty_N_go_comma_free x s : comma_free s → comma_free (pretty_N_go x s).
Proof.
  revert s. induction (N.lt_wf_0 x) as [x _ IH]; intros s Hs.
  destruct (decide (x = 0)%N) as [->|Hx]; [by rewrite pretty_N_go_0|].
  rewrite pretty_N_go_step by lia. apply IH.
  - apply N.div_lt; lia.
  - split; [|done]. eapply digit_not_comma, pretty_N_char_digit.
    by apply N.mod_lt.
Qed.

Lemma pretty_comma_free (z : Z) : comma_free (pretty z).
Proof.
  destruct z as [|p|p]; [by repeat split|..]; unfold pretty, pretty_Z.
  - unfold pretty, pretty_positive, pretty, pretty_N.
    case_decide; [done|]. by apply pretty_N_go_comma_free.
  - split; [done|]. unfold pretty, pretty_positive, pretty, pretty_N.
    case_decide; [done|]. by apply pretty_N_go_comma_free.
Qed.

(** The digits written by [pretty] are read back by [digits]. *)
Lemma digits_pretty_N_go x s :
  ∃ k : nat, ∀ acc, digits acc (pretty_N_go x s) = digits (acc * 10 ^ Z.of_nat k + Z.of_N x) s.
Proof.
  revert s. induction (N.lt_wf_0 x) as [x _ IH]; intros s.
  destruct (decide (x = 0)%N) as [->|Hx].
  { exists 0%nat. intros acc. rewrite pretty_N_go_0. f_equal. simpl. lia. }
  rewrite pretty_N_go_step by lia.
  destruct (IH (x `div` 10)%N) with (s := String (pretty_N_char (x `mod` 10)) s)
    as [k Hk]; [apply N.div_lt; lia|].
  exists (S k). intros acc. rewrite Hk. simpl digits.
  rewrite pretty_N_char_digit by (by apply N.mod_lt).
  f_equal. rewrite Nat2Z.inj_succ, Z.pow_succ_r by lia.
  rewrite N2Z.inj_mod, N2Z.inj_div. simpl Z.of_N.
  generalize (Z.div_mod (Z.of_N x) 10 ltac:(lia)).
  generalize (Z.of_N x `div` 10) (Z.of_N x `mod` 10) (10 ^ Z.of_nat k).
  intros q r P ->. ring.
Qed.

Lemma pretty_N_go_head x s :
  (0 < x)%N → ∃ c r d, pretty_N_go x s = String c r ∧ digit c = Some d.
Proof.
  revert s. induction (N.lt_wf_0 x) as [x _ IH]; intros s Hx.
  rewrite pretty_N_go_step by done.
  destruct (decide (x `div` 10 = 0)%N) as [->|Hd].
  - rewrite pretty_N_go_0. eexists _, _, _. split; [done|].
    apply pretty_N_char_digit. by apply N.mod_lt.
  - apply IH; [apply N.div_lt; lia | by apply N.neq_0_lt_0].
Qed.

Lemma unsigned_pretty_pos (p : positive) : unsigned (pretty p) = Int (Z.pos p).
Proof.
  unfold pretty, pretty_positive, pretty, pretty_N. case_decide; [done|].
  destruct (pretty_N_go_head (N.pos p) "") as (c & r & d & Hs & Hc); [lia|].
  destruct (digits_pretty_N_go (N.pos p) "") as [k Hk].
  unfold unsigned. rewrite Hs, Hc, <-Hs, Hk. simpl. done.
Qed.

Lemma pretty_pos_head (p : positive) :
  ∃ c r d, pretty p = String c r ∧ digit c = Some d.
Proof.
  unfold pretty, pretty_positive, pretty, pretty_N. case_decide; [done|].
  apply pretty_N_go_head. lia.
Qed.

Lemma parseInt_string_digit c r d :
  digit c = Some d → parseInt_string (String c r) = unsigned (String c r).
Proof.
  intros Hd. unfold parseInt_string. simpl skip_white.
  rewrite (digit_not_white _ _ Hd).
  assert (c ≠ "-"%char) by (intros ->; discriminate).
  assert (c ≠ "+"%char) by (intros ->; discriminate).
  destruct c as [[] [] [] [] [] [] [] []]; done.
Qed.

(** [parseInt] reads back the decimal form [String] gives an integer. *)
Lemma parseInt_string_pretty (z : Z) : parseInt_string (pretty z) = Int z.
Proof.
  destruct z as [|p|p]; [done|..].
  - change (pretty (Z.pos p)) with (pretty p).
    destruct (pretty_pos_head p) as (c & r & d & Hs & Hc).
    rewrite Hs, (parseInt_string_digit _ _ _ Hc), <-Hs.
    apply unsigned_pretty_pos.
  - change (pretty (Z.neg p)) with (String "-" (pretty p)).
    unfold parseInt_string. simpl. by rewrite unsigned_pretty_pos.
Qed.

Lemma parseInt_Num z : parseInt (Num z) = Int z.
Proof. apply parseInt_string_pretty. Qed.

Lemma parseInt_Str_pretty z : parseInt (Str (pretty z)) = Int z.
Proof. apply parseInt_string_pretty. Qed.

Lemma pretty_minus_one z : pretty z = "-1" ↔ z = -1.
Proof.
  split; [|by intros ->].
  intros H. by apply (inj (pretty : Z → string)).
Qed.

(** * The fields read by [onPlayerMove] *)

Lemma append_assoc (a b c : string) : (a +:+ b) +:+ c = a +:+ (b +:+ c).
Proof.
  induction a as [|x a IH]; [done|].
  change (String x ((a +:+ b) +:+ c) = String x (a +:+ b +:+ c)). by rewrite IH.
Qed.

Lemma String_moves_cons m rest :
  ∃ r, String_moves (m :: rest)
       = pretty (playerID m) +:+ "," +:+ pretty (newPosition m) +:+ ","
         +:+ pretty (oldPosition m) +:+ "," +:+ r.
Proof.
  unfold String_moves. simpl map.
  destruct (map _ rest) as [|x l]; simpl join.
  - by eexists.
  - eexists. rewrite !append_assoc. done.
Qed.

Lemma split_String_moves m rest :
  ∃ tl, split (String_moves (m :: rest))
        = pretty (playerID m) :: pretty (newPosition m) :: pretty (oldPosition m) :: tl.
Proof.
  destruct (String_moves_cons m rest) as [r ->].
  exists (split r).
  by rewrite !split_field by apply pretty_comma_free.
Qed.

Lemma items_String_moves m rest :
  item (split (String_moves (m :: rest))) 0 = Str (pretty (playerID m)) ∧
  item (split (String_moves (m :: rest))) 1 = Str (pretty (newPosition m)) ∧
  item (split (String_moves (m :: rest))) 2 = Str (pretty (oldPosition m)).
Proof. by destruct (split_String_moves m rest) as [tl ->]. Qed.

Lemma alter_lookup_insert {A} (f : A → A) (k : string) (m : gmap string A) x :
  m !! k = Some x → alter f k m = <[k := f x]> m.
Proof.
  intros H. apply map_eq; intros j. destruct (decide (k = j)) as [->|Hne].
  - by rewrite lookup_alter_eq, lookup_insert_eq, H.
  - by rewrite lookup_alter_ne, lookup_insert_ne.
Qed.

Lemma State_eq (s s' : State) :
  playerTokenInformation s = playerTokenInformation s' →
  playerPositions s = playerPositions s' →
  timer s = timer s' →
  currentPlayer s = currentPlayer s' →
  propertyView s = propertyView s' →
  currentHouses s = currentHouses s' →
  currentHotels s = currentHotels s' →
  propertyOwners s = propertyOwners s' →
  gameID s = gameID s' →
  intervals s = intervals s' →
  nextHandle s = nextHandle s' →
  listeners s = listeners s' →
  user_id s = user_id s' →
  s = s'.
Proof. destruct s, s'; simpl; intros; by subst. Qed.

(** Projections of a state built by setters, reduced without unfolding the
    state itself. *)
Ltac fields :=
  cbn [playerTokenInformation playerPositions timer currentPlayer propertyView
       currentHouses currentHotels propertyOwners gameID intervals nextHandle
       listeners user_id
       set_playerTokenInformation set_playerPositions set_timer set_currentPlayer
       set_propertyView set_currentHouses set_currentHotels set_propertyOwners
       set_gameID set_intervals set_nextHandle set_listeners].

Ltac fields_in H :=
  cbn [playerTokenInformation playerPositions timer currentPlayer propertyView
       currentHouses currentHotels propertyOwners gameID intervals nextHandle
       listeners user_id
       set_playerTokenInformation set_playerPositions set_timer set_currentPlayer
       set_propertyView set_currentHouses set_currentHotels set_propertyOwners
       set_gameID set_intervals set_nextHandle set_listeners] in H.

Lemma buy_condition (o : option Owner) :
  bool_decide (is_Some o) && bool_decide (o = Some null) = bool_decide (o = Some null).
Proof.
  destruct o as [[|]|]; repeat case_bool_decide; try done.
  exfalso; eauto.
Qed.

Lemma bool_decide_Str_minus_one z :
  bool_decide (Str (pretty z) = Str "-1") = bool_decide (z = -1).
Proof.
  apply bool_decide_ext. rewrite <-pretty_minus_one. split; congruence.
Qed.

(** One pass of symbolic execution of a script on a state. *)
Ltac run_script :=
  unfold mbind, Script_bind, mret, Script_ret, gets, modify, call, throw, member;
  cbn [returned after calls app after_calls
       playerTokenInformation playerPositions timer currentPlayer propertyView
       currentHouses currentHotels propertyOwners gameID intervals nextHandle
       listeners user_id
       set_playerTokenInformation set_playerPositions set_timer set_currentPlayer
       set_propertyView set_currentHouses set_currentHotels set_propertyOwners
       set_gameID set_intervals set_nextHandle set_listeners ToString
       fmap option_fmap option_map andb].

(** [onPlayerMove] on a payload whose first tuple names a registered player:
    the state it leaves and the calls it makes, in closed form. *)
Lemma onPlayerMove_registered s m rest pos :
  playerPositions s !! pretty (playerID m) = Some pos →
  onPlayerMove (m :: rest) s
  = mkOutcome (Some ())
      (mkState (playerTokenInformation s)
         (<[pretty (playerID m) :=
              mkPosition (if bool_decide (oldPosition m = -1) then 9 else current pos)
                (Int (if bool_decide (newPosition m = -1) then 99 else newPosition m))]>
            (playerPositions s))
         (Some (nextHandle s)) (Str (pretty (playerID m))) (propertyView s)
         (currentHouses s) (currentHotels s) (propertyOwners s) (gameID s)
         (intervals s ∪ {[nextHandle s]}) (nextHandle s + 1)%positive
         (listeners s) (user_id s))
      (LogMoveEvent (m :: rest) ::
       if strict_eq (Int (playerID m)) (parseInt (user_id s))
          && bool_decide (propertyOwners s !! pretty (newPosition m) = Some null)
       then [EnableBuyPropertyButton (gameID s) (playerID m) (newPosition m)]
       else []).
Proof.
  intros Hpos. unfold onPlayerMove. cbv zeta.
  destruct (items_String_moves m rest) as (-> & -> & ->).
  rewrite !bool_decide_Str_minus_one.
  assert (parseInt (if bool_decide (newPosition m = -1) then Num 99
                    else Str (pretty (newPosition m)))
          = Int (if bool_decide (newPosition m = -1) then 99 else newPosition m)) as ->.
  { case_bool_decide; [apply parseInt_Num|apply parseInt_Str_pretty]. }
  unfold position_of, set_current, set_end, startAnimation, setInterval.
  change ((m :: rest) !! 0%nat) with (Some m).
  destruct (bool_decide (oldPosition m = -1));
    run_script; rewrite ?Hpos; run_script;
    rewrite ?lookup_alter_eq, ?Hpos; run_script;
    (destruct (strict_eq _ _); run_script; rewrite ?buy_condition;
     [destruct (bool_decide (propertyOwners s !! pretty (newPosition m) = Some null));
      run_script|]).
  all: f_equal; apply State_eq; fields; try reflexivity.
  all: rewrite (alter_lookup_insert _ _ _ _ Hpos), ?alter_insert_eq; reflexivity.
Qed.

Lemma strict_eq_true a b : strict_eq a b = true ↔ ∃ z, a = Int z ∧ b = Int z.
Proof.
  destruct a as [|x], b as [|y]; simpl; try (split; [done|by intros (? & ? & ?)]).
  rewrite bool_decide_eq_true. split; [intros ->; eauto|by intros (? & [= ->] & [= ->])].
Qed.

Lemma strict_eq_Int a z : strict_eq a (Int z) = true ↔ a = Int z.
Proof.
  rewrite strict_eq_true. split; [by intros (? & -> & [= ->])|intros ->; eauto].
Qed.

(** * [animate] in closed form *)

Lemma animate_unknown s :
  playerPositions s !! ToString (currentPlayer s) = None →
  animate s = mkOutcome None s [].
Proof.
  intros Hpos. unfold animate, position_of. run_script. rewrite Hpos. done.
Qed.

Lemma animate_jail s pos :
  playerPositions s !! ToString (currentPlayer s) = Some pos →
  end_ pos = Int 99 →
  animate s
  = mkOutcome (Some ())
      (mkState (playerTokenInformation s)
         (<[ToString (currentPlayer s) := mkPosition 99 (Int 99)]> (playerPositions s))
         (timer s) (Str "") (propertyView s)
         (currentHouses s) (currentHotels s) (propertyOwners s) (gameID s)
         (match timer s with Some h => intervals s ∖ {[h]} | None => intervals s end)
         (nextHandle s) (listeners s) (user_id s))
      [MovePlayer (currentPlayer s) 99
         (playerTokenInformation s !! ToString (currentPlayer s) ≫= λ x, x)].
Proof.
  intros Hpos Hend.
  unfold animate, position_of, token_of, set_current, clearInterval.
  run_script. rewrite Hpos. run_script. rewrite Hend.
  change (negb (strict_eq (Int 99) (Int 99))) with false. run_script.
  destruct (timer s) eqn:Ht; run_script; rewrite ?Ht; run_script;
    f_equal; apply State_eq; fields; try done.
  all: by rewrite (alter_lookup_insert _ _ _ _ Hpos), <-Hend.
Qed.

Lemma animate_advance s pos :
  playerPositions s !! ToString (currentPlayer s) = Some pos →
  end_ pos ≠ Int 99 →
  let next := if 39 <? current pos + 1 then current pos + 1 - 40 else current pos + 1 in
  let stop := strict_eq (Int next) (end_ pos) in
  animate s
  = mkOutcome (Some ())
      (mkState (playerTokenInformation s)
         (<[ToString (currentPlayer s) := mkPosition next (end_ pos)]> (playerPositions s))
         (timer s) (if stop then Str "" else currentPlayer s) (propertyView s)
         (currentHouses s) (currentHotels s) (propertyOwners s) (gameID s)
         (if stop
          then match timer s with Some h => intervals s ∖ {[h]} | None => intervals s end
          else intervals s)
         (nextHandle s) (listeners s) (user_id s))
      [MovePlayer (currentPlayer s) next
         (playerTokenInformation s !! ToString (currentPlayer s) ≫= λ x, x)].
Proof.
  intros Hpos Hend next stop.
  unfold animate, position_of, token_of, set_current, clearInterval.
  run_script. rewrite Hpos. run_script.
  assert (strict_eq (end_ pos) (Int 99) = false) as ->.
  { apply not_true_is_false. by rewrite strict_eq_Int. }
  cbn [negb]. run_script. subst stop next.
  destruct (39 <? current pos + 1); run_script;
    rewrite ?lookup_alter_eq, Hpos; run_script;
    (destruct (strict_eq _ _); run_script;
     [destruct (timer s) eqn:Ht; run_script; rewrite ?Ht; run_script|]);
    f_equal; apply State_eq; fields; try done.
  all: by rewrite (alter_lookup_insert _ _ _ _ Hpos), ?alter_insert_eq.
Qed.

(** * The token animator *)

Lemma wrap_mod c :
  0 ≤ c ≤ 39 → (if 39 <? c + 1 then c + 1 - 40 else c + 1) = (c + 1) mod 40.
Proof.
  intros Hc. destruct (Z.ltb_spec 39 (c + 1)).
  - assert (c = 39) as -> by lia. done.
  - by rewrite Z.mod_small by lia.
Qed.

Lemma ticks_S h k s :
  ticks h (S k) s
  = let '(s1, c1) := tick h s in
    let '(s2, c2) := ticks h k s1 in (s2, (c1 ++ c2)%list).
Proof. reflexivity. Qed.

Lemma ticks_snoc h k s :
  ticks h (S k) s
  = let '(s1, c1) := ticks h k s in
    let '(s2, c2) := tick h s1 in (s2, (c1 ++ c2)%list).
Proof.
  revert s. induction k as [|k IH]; intros s.
  - simpl. destruct (tick h s). by rewrite app_nil_r.
  - rewrite (ticks_S h (S k) s), (ticks_S h k s).
    destruct (tick h s) as [s1 c1]. rewrite IH.
    destruct (ticks h k s1) as [s2 c2]. destruct (tick h s2) as [s3 c3].
    by rewrite app_assoc.
Qed.

(** The number of forward steps from [c] that first land on [t]. *)
Lemma first_landing c t :
  0 ≤ c ≤ 39 → 0 ≤ t ≤ 39 →
  let n := if decide (c = t) then 40 else (t - c + 40) mod 40 in
  1 ≤ n ≤ 40 ∧ (c + n) mod 40 = t ∧ ∀ j, 1 ≤ j < n → (c + j) mod 40 ≠ t.
Proof.
  intros Hc Ht n. subst n. case_decide as Hct.
  - subst t. split; [lia|]. split.
    + rewrite <-(Z.mod_small c 40) at 2 by lia.
      rewrite <-Z.add_mod_idemp_r, Z.mod_same, Z.add_0_r by lia. done.
    + intros j Hj. Z.div_mod_to_equations. lia.
  - split; [Z.div_mod_to_equations; lia|]. split.
    + Z.div_mod_to_equations. lia.
    + intros j Hj. Z.div_mod_to_equations. lia.
Qed.

Section Animation.
Context (h : positive) (p : jsval) (t : Z).
Hypothesis target_on_board : 0 ≤ t ≤ 39.

(** One firing of the interval while the animation is under way. *)
Lemma tick_animating s c :
  animating s h p c t → 0 ≤ c ≤ 39 →
  snd (tick h s) = [MovePlayer p ((c + 1) mod 40) (token_in s p)] ∧
  token_in (fst (tick h s)) p = token_in s p ∧
  ((c + 1) mod 40 ≠ t → animating (fst (tick h s)) h p ((c + 1) mod 40) t) ∧
  ((c + 1) mod 40 = t → stopped (fst (tick h s)) h p t).
Proof.
  intros (Hp & Hpos & Htimer & Hin) Hc. unfold tick, run_callback.
  rewrite bool_decide_true by done.
  rewrite <-Hp in Hpos.
  assert (Int t ≠ Int 99) as Hboard by (intros Habs; injection Habs; lia).
  rewrite (animate_advance s _ Hpos Hboard).
  cbn [current end_ fst snd after calls]. rewrite (wrap_mod c Hc), Hp.
  set (c' := (c + 1) mod 40).
  split; [done|]. split; [done|]. split.
  - intros Hne.
    assert (strict_eq (Int c') (Int t) = false) as ->.
    { apply not_true_is_false. rewrite strict_eq_Int. congruence. }
    unfold animating. fields. by rewrite lookup_insert_eq.
  - intros Heq.
    assert (strict_eq (Int c') (Int t) = true) as ->.
    { rewrite strict_eq_Int. congruence. }
    unfold stopped. fields. rewrite lookup_insert_eq, Htimer, Heq.
    split; [done|]. split; [done|].
    intros [_ Hn]%elem_of_difference. by apply Hn, elem_of_singleton.
Qed.

(** While the target has not been reached, [k] firings move the token [k]
    cells forward, wrapping at the end of the board, and render each cell. *)
Lemma ticks_animating k s c :
  animating s h p c t → 0 ≤ c ≤ 39 →
  (∀ j, 1 ≤ j ≤ Z.of_nat k → (c + j) mod 40 ≠ t) →
  animating (fst (ticks h k s)) h p ((c + Z.of_nat k) mod 40) t ∧
  token_in (fst (ticks h k s)) p = token_in s p ∧
  snd (ticks h k s)
  = map (λ j, MovePlayer p ((c + j) mod 40) (token_in s p)) (seqZ 1 (Z.of_nat k)).
Proof.
  intros Hs Hc. induction k as [|k IH]; intros Hfree.
  - simpl. rewrite Z.add_0_r, Z.mod_small by lia. done.
  - destruct IH as (Hk & Htok & Hcalls); [intros j Hj; apply Hfree; lia|].
    rewrite ticks_snoc. destruct (ticks h k s) as [s1 c1]; simpl in Hk, Htok, Hcalls.
    assert (0 ≤ (c + Z.of_nat k) mod 40 ≤ 39) as Hck
      by (Z.div_mod_to_equations; lia).
    destruct (tick_animating s1 _ Hk Hck) as (Hc2 & Htok2 & Hgo & _).
    assert (((c + Z.of_nat k) mod 40 + 1) mod 40 = (c + Z.of_nat (S k)) mod 40) as Hnext.
    { rewrite Z.add_mod_idemp_l by lia. f_equal. lia. }
    rewrite Hnext in *.
    destruct (tick h s1) as [s2 c2]; simpl in *.
    split; [apply Hgo, Hfree; lia|]. split; [congruence|].
    rewrite seqZ_S, map_app, Hcalls, Hc2, Htok. simpl. do 4 f_equal. lia.
Qed.

(** [C1] While the animation of player [p] is under way with the token on a
    board cell [c] and a board cell [t] as target (so [t] is not the jail
    value 99), every firing of the interval moves the stored position one
    cell forward, from 39 back to 0, and renders that cell.  The stored
    position reaches the target, the interval is cancelled and the marker is
    cleared after exactly [(t - c + 40) mod 40] firings when [c ≠ t]; when
    the token already stands on its target the first firing still moves it
    on, and the animation stops only after a full lap of 40 firings. *)
Theorem animate_reaches_target s c :
  animating s h p c t → 0 ≤ c ≤ 39 →
  let n := if decide (c = t) then 40 else (t - c + 40) mod 40 in
  stops_after s h p t (Z.to_nat n) ∧
  (∀ k, 0 ≤ k < n →
        animating (fst (ticks h (Z.to_nat k) s)) h p ((c + k) mod 40) t) ∧
  snd (ticks h (Z.to_nat n) s)
  = map (λ k, MovePlayer p ((c + k) mod 40) (token_in s p)) (seqZ 1 n).
Proof.
  intros Hs Hc n.
  destruct (first_landing c t Hc target_on_board) as (Hn & Hland & Hfree).
  fold n in Hn, Hland, Hfree.
  assert (∀ k, 0 ≤ k < n →
            animating (fst (ticks h (Z.to_nat k) s)) h p ((c + k) mod 40) t) as Hrun.
  { intros k Hk.
    destruct (ticks_animating (Z.to_nat k) s c Hs Hc) as (Ha & _).
    - intros j Hj. apply Hfree. lia.
    - by rewrite Z2Nat.id in Ha by lia. }
  destruct (ticks_animating (Z.to_nat (n - 1)) s c Hs Hc) as (Ha & Htok & Hcalls).
  { intros j Hj. apply Hfree. lia. }
  rewrite Z2Nat.id in Ha, Hcalls by lia.
  assert (Z.to_nat n = S (Z.to_nat (n - 1))) as Hn1 by lia.
  assert (0 ≤ (c + (n - 1)) mod 40 ≤ 39) as Hck by (Z.div_mod_to_equations; lia).
  destruct (tick_animating _ _ Ha Hck) as (Hc2 & _ & _ & Hstop).
  assert (((c + (n - 1)) mod 40 + 1) mod 40 = t) as Hlast.
  { rewrite Z.add_mod_idemp_l by lia. rewrite <-Hland. f_equal. lia. }
  rewrite Hlast in *. specialize (Hstop eq_refl).
  split; [split|split]; [| |done|].
  - rewrite Hn1, ticks_snoc. destruct (ticks h (Z.to_nat (n - 1)) s) as [s1 c1].
    simpl in *. by destruct (tick h s1).
  - intros k Hk (_ & _ & Hout).
    destruct (Hrun (Z.of_nat k)) as (_ & _ & _ & Hin); [lia|].
    by rewrite Nat2Z.id in Hin.
  - rewrite Hn1, ticks_snoc. destruct (ticks h (Z.to_nat (n - 1)) s) as [s1 c1].
    simpl in *. destruct (tick h s1) as [s2 c2]. simpl in *.
    replace n with (Z.of_nat (S (Z.to_nat (n - 1)))) at 1 by lia.
    rewrite seqZ_S, map_app, Hcalls, Hc2, Htok, Z2Nat.id by lia. simpl.
    do 3 f_equal. rewrite <-Hlast at 1. rewrite Z.add_mod_idemp_l by lia.
    f_equal. lia.
Qed.
End Animation.

(** * Jail *)

(** [C5] When the target stored for the current player is the jail value 99,
    one firing of an armed interval renders the token once, at 99, sets the
    stored position to 99, cancels the interval whose handle is in [timer]
    and clears the marker, whatever the stored position was before. *)
Theorem jail_in_one_tick s h pos :
  h ∈ intervals s →
  playerPositions s !! ToString (currentPlayer s) = Some pos →
  end_ pos = Int 99 →
  let p := currentPlayer s in
  let s' := fst (tick h s) in
  snd (tick h s) = [MovePlayer p 99 (token_in s p)] ∧
  playerPositions s' !! ToString p = Some (mkPosition 99 (Int 99)) ∧
  (∀ t, timer s = Some t → t ∉ intervals s') ∧
  currentPlayer s' = Str "".
Proof.
  intros Hin Hpos Hend p s'. subst p s'. unfold tick, run_callback.
  rewrite bool_decide_true by done.
  rewrite (animate_jail s pos Hpos Hend). cbn [fst snd after calls]. fields.
  rewrite lookup_insert_eq. split; [done|]. split; [done|]. split; [|done].
  intros t ->. intros [_ Hn]%elem_of_difference. by apply Hn, elem_of_singleton.
Qed.

(** * Move events *)

(** [C7] A move event whose old position is -1, for a registered player:
    the handler returns with the stored position set to cell 9, the target
    set, the marker on the player and a new interval armed.  When the new
    position is a board cell, the first firing of that interval renders
    cell 10 and stores it: the animation goes forward from cell 9. *)
Theorem move_from_jail s m rest pos :
  playerPositions s !! pretty (playerID m) = Some pos →
  oldPosition m = -1 →
  let s' := after (onPlayerMove (m :: rest) s) in
  let p := Str (pretty (playerID m)) in
  let h := nextHandle s in
  returned (onPlayerMove (m :: rest) s) = Some () ∧
  animating s' h p 9 (if bool_decide (newPosition m = -1) then 99 else newPosition m) ∧
  (0 ≤ newPosition m ≤ 39 →
   snd (tick h s') = [MovePlayer p 10 (token_in s p)] ∧
   playerPositions (fst (tick h s')) !! pretty (playerID m)
   = Some (mkPosition 10 (Int (newPosition m)))).
Proof.
  intros Hpos Hold s' p h. subst s' p h.
  rewrite (onPlayerMove_registered s m rest pos Hpos).
  cbn [returned after]. rewrite (bool_decide_true _ Hold).
  split; [done|].
  assert (∀ t, animating
    {| playerTokenInformation := playerTokenInformation s;
       playerPositions := <[pretty (playerID m) := mkPosition 9 (Int t)]> (playerPositions s);
       timer := Some (nextHandle s); currentPlayer := Str (pretty (playerID m));
       propertyView := propertyView s; currentHouses := currentHouses s;
       currentHotels := currentHotels s; propertyOwners := propertyOwners s;
       gameID := gameID s; intervals := intervals s ∪ {[nextHandle s]};
       nextHandle := (nextHandle s + 1)%positive; listeners := listeners s;
       user_id := user_id s |} (nextHandle s) (Str (pretty (playerID m))) 9 t) as Hanim.
  { intros t. unfold animating. fields. cbn [ToString]. rewrite lookup_insert_eq.
    repeat split; set_solver. }
  split; [apply Hanim|].
  intros Hboard. rewrite bool_decide_false by lia.
  destruct (tick_animating (nextHandle s) (Str (pretty (playerID m))) (newPosition m)
              Hboard _ 9 (Hanim _)) as (Hcalls & _ & Hgo & Hstop); [lia|].
  change ((9 + 1) mod 40) with 10 in *.
  split; [exact Hcalls|].
  destruct (decide (10 = newPosition m)) as [Heq|Hne].
  - destruct (Hstop Heq) as (Hp & _). by rewrite <-Heq in Hp |- *.
  - by destruct (Hgo Hne) as (_ & Hp & _).
Qed.

(** [C8] On a move event whose first tuple names a registered player, the
    handler calls [enableBuyPropertyButton] if and only if the id of that
    player is the number [parseInt] reads from the cookie's [user_id], the
    new position is a key of [propertyOwners], and the owner stored under it
    is [null]; the call is made with the game id, that player's id and the new
    position. *)
Theorem buy_button_iff s m rest :
  is_Some (playerPositions s !! pretty (playerID m)) →
  let made := calls (onPlayerMove (m :: rest) s) in
  ((∃ g p n, EnableBuyPropertyButton g p n ∈ made) ↔
   parseInt (user_id s) = Int (playerID m) ∧
   pretty (newPosition m) ∈ dom (propertyOwners s) ∧
   propertyOwners s !! pretty (newPosition m) = Some null) ∧
  (∀ g p n, EnableBuyPropertyButton g p n ∈ made →
            g = gameID s ∧ p = playerID m ∧ n = newPosition m).
Proof.
  intros [pos Hpos] made. subst made.
  rewrite (onPlayerMove_registered s m rest pos Hpos). cbn [calls].
  assert (strict_eq (Int (playerID m)) (parseInt (user_id s)) = true
          ↔ parseInt (user_id s) = Int (playerID m)) as Hid.
  { rewrite strict_eq_true. split; [by intros (? & [= ->] & ->)|intros ->; eauto]. }
  destruct (strict_eq _ _) eqn:Heq; cbn [andb];
    [case_bool_decide as Hnull|]; split.
  - split; [intros _|intros _; eexists _, _, _; apply elem_of_cons; right;
              apply elem_of_cons; by left].
    split; [by apply Hid|]. split; [|done]. apply elem_of_dom. by rewrite Hnull.
  - intros g p n [[=]|[[= -> -> ->]|Hin%elem_of_nil]%elem_of_cons]%elem_of_cons; done.
  - split; [|by intros (_ & _ & ?)].
    intros (g & p & n & [[=]|Hin%elem_of_nil]%elem_of_cons); done.
  - intros g p n [[=]|Hin%elem_of_nil]%elem_of_cons; done.
  - split; [|intros (Hu & _); apply Hid in Hu; congruence].
    intros (g & p & n & [[=]|Hin%elem_of_nil]%elem_of_cons); done.
  - intros g p n [[=]|Hin%elem_of_nil]%elem_of_cons; done.
Qed.

Lemma onPlayerMove_unregistered s m rest :
  playerPositions s !! pretty (playerID m) = None →
  onPlayerMove (m :: rest) s
  = mkOutcome None (set_currentPlayer (Str (pretty (playerID m))) s)
      [LogMoveEvent (m :: rest)].
Proof.
  intros Hpos. unfold onPlayerMove. cbv zeta.
  destruct (items_String_moves m rest) as (-> & -> & ->).
  unfold position_of.
  destruct (bool_decide (Str (pretty (oldPosition m)) = Str "-1"));
    run_script; rewrite Hpos; reflexivity.
Qed.

(** A payload without tuples names the player [''] and, when such a player
    exists, arms an interval before the destructuring throws. *)
Lemma onPlayerMove_nil s :
  onPlayerMove [] s
  = match playerPositions s !! "" with
    | Some pos =>
        mkOutcome None
          (mkState (playerTokenInformation s)
             (<["" := mkPosition (current pos) NaN]> (playerPositions s))
             (Some (nextHandle s)) (Str "") (propertyView s)
             (currentHouses s) (currentHotels s) (propertyOwners s) (gameID s)
             (intervals s ∪ {[nextHandle s]}) (nextHandle s + 1)%positive
             (listeners s) (user_id s))
          [LogMoveEvent []]
    | None => mkOutcome None (set_currentPlayer (Str "") s) [LogMoveEvent []]
    end.
Proof.
  unfold onPlayerMove. cbv zeta.
  change (String_moves []) with "". change (split "") with [""].
  change (item [""] 0) with (Str ""). change (item [""] 1) with undefined.
  change (item [""] 2) with undefined.
  change (bool_decide (undefined = Str "-1")) with false.
  change (parseInt undefined) with NaN.
  change (([] : list Move) !! 0%nat) with (@None Move).
  unfold position_of, set_end, startAnimation, setInterval.
  run_script. cbn [ToString].
  destruct (playerPositions s !! "") as [pos|] eqn:Hpos; run_script; [|done].
  rewrite ?Hpos. run_script.
  f_equal. apply State_eq; fields; try done.
  by rewrite (alter_lookup_insert _ _ _ _ Hpos).
Qed.

Lemma same_but_jailed_cons m a m' b :
  same_but_jailed (m :: a) (m' :: b) →
  playerID m = playerID m' ∧ newPosition m = newPosition m'
  ∧ oldPosition m = oldPosition m'.
Proof. unfold same_but_jailed. simpl. by intros [= -> -> -> _]. Qed.

(** [C9] Two move payloads that differ at most in their jailed flags make
    the handler return or throw alike, leave the same state, and make the
    same calls, up to the payload itself, which is handed as it is to the
    log: the handler reads no jailed flag. *)
Theorem jailed_flag_unread s a b :
  same_but_jailed a b →
  returned (onPlayerMove a s) = returned (onPlayerMove b s) ∧
  after (onPlayerMove a s) = after (onPlayerMove b s) ∧
  ∃ others, calls (onPlayerMove a s) = LogMoveEvent a :: others ∧
            calls (onPlayerMove b s) = LogMoveEvent b :: others.
Proof.
  intros Hab. destruct a as [|m a], b as [|m' b]; try discriminate Hab.
  - rewrite onPlayerMove_nil. destruct (playerPositions s !! ""); eauto.
  - destruct (same_but_jailed_cons _ _ _ _ Hab) as (Hid & Hnew & Hold).
    destruct (playerPositions s !! pretty (playerID m)) as [pos|] eqn:Hpos.
    + rewrite (onPlayerMove_registered s m a pos Hpos).
      rewrite Hid in Hpos. rewrite (onPlayerMove_registered s m' b pos Hpos).
      cbn [returned after calls]. rewrite Hid, Hnew, Hold. eauto.
    + rewrite (onPlayerMove_unregistered s m a Hpos).
      rewrite Hid in Hpos. rewrite (onPlayerMove_unregistered s m' b Hpos).
      cbn [returned after calls]. rewrite Hid. eauto.
Qed.

(** * What the callbacks leave alone *)

Lemma same_animation_refl s : same_animation s s.
Proof. by repeat split. Qed.

Lemma same_animation_trans s1 s2 s3 :
  same_animation s1 s2 → same_animation s2 s3 → same_animation s1 s3.
Proof.
  intros (? & ? & ? & ? & ?) (? & ? & ? & ? & ?). repeat split; congruence.
Qed.

Lemma for_each_frame {A} (body : A → Script unit) l s :
  (∀ x s, ∃ s' c, body x s = mkOutcome (Some ()) s' c ∧ same_animation s s') →
  ∃ s' c, for_each body l s = mkOutcome (Some ()) s' c ∧ same_animation s s'.
Proof.
  intros Hbody. revert s. induction l as [|x l IH]; intros s.
  - eexists _, _. split; [reflexivity|apply same_animation_refl].
  - cbn [for_each]. destruct (Hbody x s) as (s1 & c1 & H1 & Hs1).
    destruct (IH s1) as (s2 & c2 & H2 & Hs2).
    unfold mbind, Script_bind. rewrite H1, H2. cbn [after_calls].
    eexists _, _. split; [reflexivity|]. by eapply same_animation_trans.
Qed.

Lemma onHouseEvent_frame buildings s :
  same_animation s (after (onHouseEvent buildings s)).
Proof.
  unfold onHouseEvent.
  match goal with
  | |- context [for_each ?body buildings] =>
      destruct (for_each_frame body buildings s) as (s' & c & Hloop & Hs')
  end.
  { intros kv s0. run_script. eexists _, _. split; [reflexivity|].
    unfold same_animation. fields. done. }
  unfold mbind at 1, Script_bind at 1. rewrite Hloop.
  run_script. exact Hs'.
Qed.

Lemma other_handlers_frame h e s :
  h ≠ OnPlayerMove → same_animation s (after (run_handler h e s)).
Proof.
  intros Hh. destruct h, e; try done; cbn [run_handler];
    try apply same_animation_refl; try apply onHouseEvent_frame.
  - unfold onPropertyOwnerChanges.
    destruct changes as [|c changes]; [apply same_animation_refl|].
    change ((c :: changes) !! 0%nat) with (Some c). run_script.
    destruct (propertyView s) eqn:Hv; run_script; rewrite ?Hv; run_script;
      unfold same_animation; fields; done.
Qed.

(** [animate] never arms an interval, and cancels at most the one whose
    handle is in [timer]. *)
Lemma animate_timers s :
  timer (after (animate s)) = timer s ∧
  nextHandle (after (animate s)) = nextHandle s ∧
  (intervals (after (animate s)) = intervals s ∨
   ∃ t, timer s = Some t ∧ intervals (after (animate s)) = intervals s ∖ {[t]}).
Proof.
  destruct (playerPositions s !! ToString (currentPlayer s)) as [pos|] eqn:Hpos.
  - destruct (decide (end_ pos = Int 99)) as [Hend|Hend].
    + rewrite (animate_jail s pos Hpos Hend). cbn [after]. fields.
      split; [done|]. split; [done|].
      destruct (timer s) as [t|]; [right; by exists t|by left].
    + rewrite (animate_advance s pos Hpos Hend). cbn [after]. fields.
      split; [done|]. split; [done|].
      destruct (strict_eq _ _); [|by left].
      destruct (timer s) as [t|]; [right; by exists t|by left].
  - rewrite (animate_unknown s Hpos). cbn [after]. eauto.
Qed.

(** [onPlayerMove] either leaves the timers alone or arms one new interval
    and stores its handle. *)
Lemma onPlayerMove_timers moves s :
  (intervals (after (onPlayerMove moves s)) = intervals s ∧
   timer (after (onPlayerMove moves s)) = timer s ∧
   nextHandle (after (onPlayerMove moves s)) = nextHandle s) ∨
  (intervals (after (onPlayerMove moves s)) = intervals s ∪ {[nextHandle s]} ∧
   timer (after (onPlayerMove moves s)) = Some (nextHandle s) ∧
   nextHandle (after (onPlayerMove moves s)) = (nextHandle s + 1)%positive).
Proof.
  destruct moves as [|m rest].
  - rewrite onPlayerMove_nil. destruct (playerPositions s !! ""); cbn [after]; eauto.
  - destruct (playerPositions s !! pretty (playerID m)) as [pos|] eqn:Hpos.
    + rewrite (onPlayerMove_registered s m rest pos Hpos). cbn [after]. eauto.
    + rewrite (onPlayerMove_unregistered s m rest Hpos). cbn [after]. eauto.
Qed.

(** * After the target is reached *)

Lemma not_elem_of_remove (X : gset positive) t : t ∉ X ∖ {[t]}.
Proof. intros [_ Hn]%elem_of_difference. by apply Hn, elem_of_singleton. Qed.

Lemma quiescent_step i s :
  not_a_move i →
  currentPlayer s = Str "" →
  playerPositions s !! "" = None ∨ intervals s = ∅ →
  currentPlayer (step i s) = Str "" ∧
  playerPositions (step i s) = playerPositions s ∧
  intervals (step i s) = intervals s.
Proof.
  intros Hi Hcp Hidle. destruct i as [h|h e]; cbn [step].
  - unfold tick. case_bool_decide as Hin; [|done].
    destruct Hidle as [Hnone|Hempty];
      [|rewrite Hempty in Hin; by apply not_elem_of_empty in Hin].
    unfold run_callback. rewrite animate_unknown by (by rewrite Hcp). done.
  - assert (h ≠ OnPlayerMove) as Hh by (intros ->; exact Hi).
    destruct (other_handlers_frame h e s Hh) as (Hp & Hc & _ & Hiv & _).
    cbn [run_callback fst]. by rewrite Hp, Hc, Hiv.
Qed.

Lemma quiescent_run inputs s :
  Forall not_a_move inputs →
  currentPlayer s = Str "" →
  playerPositions s !! "" = None ∨ intervals s = ∅ →
  playerPositions (run inputs s) = playerPositions s.
Proof.
  intros Hinputs. revert s.
  induction Hinputs as [|i inputs Hi _ IH]; intros s Hcp Hidle; [done|].
  destruct (quiescent_step i s Hi Hcp Hidle) as (Hcp' & Hpos' & Hiv').
  change (run (i :: inputs) s) with (run inputs (step i s)).
  rewrite IH, Hpos'; [done|done|]. by rewrite Hpos', Hiv'.
Qed.

(** [C6] Take the firing of an armed interval after which the stored position
    of the current player equals its target.  That firing cancels the
    interval whose handle is in [timer] and clears the marker, and afterwards
    no stored position changes, whatever intervals fire and whatever events
    other than a player move are handled.  The page is one where no player
    has the empty id (as on every page of the script) or where the firing
    interval was the only one armed. *)
Theorem completion_is_final s h pos' inputs :
  let p := currentPlayer s in
  let s' := fst (tick h s) in
  h ∈ intervals s →
  playerPositions s' !! ToString p = Some pos' →
  Int (current pos') = end_ pos' →
  playerPositions s !! "" = None ∨ (intervals s = {[h]} ∧ timer s = Some h) →
  Forall not_a_move inputs →
  (∀ t, timer s = Some t → t ∉ intervals s') ∧
  currentPlayer s' = Str "" ∧
  playerPositions (run inputs s') = playerPositions s'.
Proof.
  intros p s' Hin Hpos' Hreached Hidle Hinputs. subst p s'.
  unfold tick, run_callback in *. rewrite bool_decide_true in * by done.
  cbn [fst] in *.
  destruct (playerPositions s !! ToString (currentPlayer s)) as [pos|] eqn:Hpos;
    [|rewrite (animate_unknown s Hpos) in Hpos'; cbn [after] in Hpos'; congruence].
  destruct (decide (end_ pos = Int 99)) as [Hend|Hend].
  - rewrite (animate_jail s pos Hpos Hend) in *. cbn [after] in *. fields.
    split; [|split; [done|]].
    + intros t ->. apply not_elem_of_remove.
    + apply quiescent_run; [done|done|]. fields.
      destruct Hidle as [Hnone|[-> ->]]; [left|right; apply difference_diag_L].
      rewrite lookup_insert_ne; [done|congruence].
  - rewrite (animate_advance s pos Hpos Hend) in *. cbn [after] in *.
    fields_in Hpos'. rewrite lookup_insert_eq in Hpos'. injection Hpos' as <-.
    cbn [current end_] in Hreached.
    assert (strict_eq
              (Int (if 39 <? current pos + 1 then current pos + 1 - 40
                    else current pos + 1)) (end_ pos) = true) as Hstop.
    { apply strict_eq_true. eauto. }
    rewrite Hstop in *.
    split; [|split; [done|]].
    + intros t ->. apply not_elem_of_remove.
    + apply quiescent_run; [done|done|]. fields.
      destruct Hidle as [Hnone|[-> ->]]; [left|right; apply difference_diag_L].
      rewrite lookup_insert_ne; [done|congruence].
Qed.

(** * Intervals left behind *)

(** A step cancels no interval but the one whose handle is in [timer]. *)
Lemma only_timer_cancelled i s h :
  h ∈ intervals s → h ∉ intervals (step i s) → timer s = Some h.
Proof.
  intros Hin Hout. destruct i as [h'|hd e]; cbn [step] in Hout.
  - unfold tick in Hout. case_bool_decide; [|done]. cbn [run_callback fst] in Hout.
    destruct (animate_timers s) as (_ & _ & [Heq|(t & Ht & Heq)]);
      rewrite Heq in Hout; [done|].
    destruct (decide (t = h)) as [->|Hne]; [done|].
    exfalso. apply Hout, elem_of_difference. split; [done|].
    by intros ->%elem_of_singleton.
  - cbn [run_callback fst] in Hout. destruct (decide (hd = OnPlayerMove)) as [->|Hh].
    + destruct e; cbn [run_handler] in Hout; try done.
      destruct (onPlayerMove_timers moves s) as [(Heq & _)|(Heq & _)];
        rewrite Heq in Hout; [done|].
      exfalso. apply Hout, elem_of_union. by left.
    + destruct (other_handlers_frame hd e s Hh) as (_ & _ & _ & Heq & _).
      by rewrite Heq in Hout.
Qed.

(** An armed interval whose handle has been overwritten in [timer] stays
    armed, and stays out of [timer], whatever happens next. *)
Lemma stale_step i s h :
  h ∈ intervals s → (h < nextHandle s)%positive → timer s ≠ Some h →
  h ∈ intervals (step i s) ∧ (h < nextHandle (step i s))%positive
  ∧ timer (step i s) ≠ Some h.
Proof.
  intros Hin Hlt Hstale.
  split.
  { destruct (decide (h ∈ intervals (step i s))) as [|Hout]; [done|].
    by destruct Hstale; apply (only_timer_cancelled i). }
  destruct i as [h'|hd e]; cbn [step].
  - unfold tick. case_bool_decide; [|done]. cbn [run_callback fst].
    destruct (animate_timers s) as (-> & -> & _). done.
  - cbn [run_callback fst]. destruct (decide (hd = OnPlayerMove)) as [->|Hh].
    + destruct e; cbn [run_handler]; try done.
      destruct (onPlayerMove_timers moves s) as [(_ & -> & ->)|(_ & -> & ->)];
        [done|].
      split; [lia|]. intros [= Heq]. lia.
    + destruct (other_handlers_frame hd e s Hh) as (_ & _ & -> & _ & ->). done.
Qed.

Lemma stale_run inputs s h :
  h ∈ intervals s → (h < nextHandle s)%positive → timer s ≠ Some h →
  h ∈ intervals (run inputs s).
Proof.
  revert s. induction inputs as [|i inputs IH]; intros s Hin Hlt Hstale; [done|].
  destruct (stale_step i s h Hin Hlt Hstale) as (? & ? & ?).
  change (run (i :: inputs) s) with (run inputs (step i s)). by apply IH.
Qed.

Lemma handles_allocated_step i s :
  handles_allocated s → handles_allocated (step i s).
Proof.
  intros Hs h Hin. destruct i as [h'|hd e]; cbn [step] in *.
  - unfold tick in *. case_bool_decide; [|by apply Hs].
    cbn [run_callback fst] in *.
    destruct (animate_timers s) as (_ & -> & [Heq|(t & _ & Heq)]);
      rewrite Heq in Hin; [by apply Hs|].
    apply Hs. by apply elem_of_difference in Hin as [? _].
  - cbn [run_callback fst] in *. destruct (decide (hd = OnPlayerMove)) as [->|Hh].
    + destruct e; cbn [run_handler] in *; try by apply Hs.
      destruct (onPlayerMove_timers moves s) as [(Heq & _ & ->)|(Heq & _ & ->)];
        rewrite Heq in Hin; [by apply Hs|].
      apply elem_of_union in Hin as [Hin|Hnew%elem_of_singleton]; [|subst h; lia].
      specialize (Hs h Hin). lia.
    + destruct (other_handlers_frame hd e s Hh) as (_ & _ & _ & Heq & ->).
      rewrite Heq in Hin. by apply Hs.
Qed.

(** [C10] A move event for a registered player, handled while an interval
    [h0] is armed: the handler stores the handle of a newly armed interval in
    [timer] and the moving player in the marker, and cancels nothing; [h0]
    then stays armed whatever fires or is handled later, since a firing
    cancels only the interval whose handle is in [timer]. *)
Theorem move_orphans_interval s m rest h0 :
  handles_allocated s →
  h0 ∈ intervals s →
  is_Some (playerPositions s !! pretty (playerID m)) →
  let s' := step (Invoke OnPlayerMove (PlayerMove (m :: rest))) s in
  timer s' = Some (nextHandle s) ∧
  (nextHandle s ∉ intervals s) ∧
  currentPlayer s' = Str (pretty (playerID m)) ∧
  intervals s' = intervals s ∪ {[nextHandle s]} ∧
  ∀ inputs, h0 ∈ intervals (run inputs s').
Proof.
  intros Hs Hin [pos Hpos] s'. subst s'.
  cbn [step run_handler run_callback fst].
  assert (nextHandle s ∉ intervals s) as Hfresh.
  { intros Hn. specialize (Hs _ Hn). lia. }
  pose proof (Hs _ Hin) as Hlt.
  split; [|split; [done|split; [|split]]].
  1-3: rewrite (onPlayerMove_registered s m rest pos Hpos); done.
  intros inputs. apply stale_run;
    rewrite (onPlayerMove_registered s m rest pos Hpos); cbn [after]; fields.
  - apply elem_of_union. by left.
  - lia.
  - intros [= Heq]. lia.
Qed.

(** * States a page can reach *)

Lemma pretty_nonempty (z : Z) : pretty z ≠ "".
Proof.
  destruct z as [|p|p]; [done| |done].
  change (pretty (Z.pos p)) with (pretty p).
  by destruct (pretty_pos_head p) as (c & r & d & -> & _).
Qed.

Lemma displayBoard_loop_returns i players s :
  ∃ s' c, displayBoard_loop i players s = mkOutcome (Some ()) s' c ∧
          timer s' = timer s ∧ intervals s' = intervals s ∧
          nextHandle s' = nextHandle s ∧
          (playerPositions s !! "" = None → playerPositions s' !! "" = None).
Proof.
  revert i s. induction players as [|p players IH]; intros i s.
  - by eexists _, _.
  - cbn [displayBoard_loop]. unfold createCanvas, token_of. run_script.
    match goal with
    | |- context [displayBoard_loop (S i) players ?s1] =>
        destruct (IH (S i) s1) as (s' & c & -> & Ht & Hi & Hn & He)
    end.
    revert Ht Hi Hn He. fields. intros Ht Hi Hn He.
    run_script. eexists _, _. split; [reflexivity|]. repeat split; try done.
    intros Hnone. apply He. rewrite lookup_insert_ne; [done|apply pretty_nonempty].
Qed.

Lemma startSession_returns players startEvent s :
  ∃ s' c, startSession players startEvent s = mkOutcome (Some ()) s' c ∧
          timer s' = timer s ∧ intervals s' = intervals s ∧
          nextHandle s' = nextHandle s ∧
          (playerPositions s !! "" = None → playerPositions s' !! "" = None).
Proof.
  unfold startSession, activeGame, activeGame_callback, displayBoard,
    enableActiveGameListeners, addEventListener, createCanvas.
  run_script.
  match goal with
  | |- context [for_each ?body ?l ?s0] =>
      destruct (for_each_frame body l s0) as (s1 & c1 & -> & Hp1 & _ & Ht1 & Hi1 & Hn1)
  end.
  { intros p s0. eexists _, _. split; [reflexivity|]. unfold same_animation. by fields. }
  revert Ht1 Hi1 Hn1 Hp1. fields. intros Ht1 Hi1 Hn1 Hp1. run_script.
  destruct (displayBoard_loop_returns 0 players s1)
    as (s2 & c2 & -> & Ht2 & Hi2 & Hn2 & He2).
  run_script. eexists _, _. split; [reflexivity|]. fields.
  repeat split; try congruence. intros Hnone. apply He2. by rewrite Hp1.
Qed.

Lemma handles_allocated_initial uid : handles_allocated (initial uid).
Proof. intros h Hin. by apply not_elem_of_empty in Hin. Qed.

Lemma handles_allocated_startSession players startEvent s :
  handles_allocated s → handles_allocated (after (startSession players startEvent s)).
Proof.
  intros Hs. destruct (startSession_returns players startEvent s)
    as (s' & c & -> & _ & Hi & Hn & _).
  intros h. cbn [after]. rewrite Hi, Hn. apply Hs.
Qed.

Lemma no_empty_player_startSession players startEvent s :
  playerPositions s !! "" = None →
  playerPositions (after (startSession players startEvent s)) !! "" = None.
Proof.
  destruct (startSession_returns players startEvent s)
    as (s' & c & -> & _ & _ & _ & He). exact He.
Qed.

Lemma no_empty_player_step i s :
  playerPositions s !! "" = None → playerPositions (step i s) !! "" = None.
Proof.
  intros Hnone. destruct i as [h|hd e]; cbn [step].
  - unfold tick. case_bool_decide; [|done]. cbn [run_callback fst].
    destruct (playerPositions s !! ToString (currentPlayer s)) as [pos|] eqn:Hpos;
      [|by rewrite (animate_unknown s Hpos)].
    assert (ToString (currentPlayer s) ≠ "") as Hne by congruence.
    destruct (decide (end_ pos = Int 99)) as [Hend|Hend].
    + rewrite (animate_jail s pos Hpos Hend). cbn [after]. fields.
      by rewrite lookup_insert_ne.
    + rewrite (animate_advance s pos Hpos Hend). cbn [after]. fields.
      by rewrite lookup_insert_ne.
  - cbn [run_callback fst]. destruct (decide (hd = OnPlayerMove)) as [->|Hh].
    + destruct e; cbn [run_handler]; try done.
      destruct moves as [|m rest].
      * rewrite onPlayerMove_nil, Hnone. done.
      * destruct (playerPositions s !! pretty (playerID m)) as [pos|] eqn:Hpos.
        -- rewrite (onPlayerMove_registered s m rest pos Hpos). cbn [after]. fields.
           rewrite lookup_insert_ne; [done|apply pretty_nonempty].
        -- by rewrite (onPlayerMove_unregistered s m rest Hpos).
    + destruct (other_handlers_frame hd e s Hh) as (-> & _). done.
Qed.

(** [X19] Every state of a page has its armed intervals below the next handle
    and no player with the empty id. *)
Lemma reachable_invariants s :
  reachable s → handles_allocated s ∧ playerPositions s !! "" = None.
Proof.
  induction 1 as [uid|players startEvent s _ [IHh IHe]|i s _ [IHh IHe]].
  - split; [apply handles_allocated_initial|done].
  - split; [by apply handles_allocated_startSession
           |by apply no_empty_player_startSession].
  - split; [by apply handles_allocated_step|by apply no_empty_player_step].
Qed.

(** * Ownership changes *)

(** The handler on a payload with a first change [c], once the view exists:
    the map gets the one entry of [c], the view a row per change. *)
Lemma onPropertyOwnerChanges_cons s c rest :
  propertyView s = true →
  onPropertyOwnerChanges (c :: rest) s
  = mkOutcome (Some ())
      (set_propertyOwners (<[pretty (property_position c) := newOwner c]>) s)
      [PropertyViewUpdate (map view_change (c :: rest));
       LogPropertyEvent (c :: rest)].
Proof.
  intros Hv. unfold onPropertyOwnerChanges.
  change ((c :: rest) !! 0%nat) with (Some c). run_script.
  destruct (propertyView s) eqn:Hview; [|done].
  run_script. rewrite ?Hview. run_script. reflexivity.
Qed.

(** A change without a previous or a new owner is shown with a [null] name. *)
Lemma view_change_null change :
  (oldOwner change = null → view_oldOwner (view_change change) = None) ∧
  (newOwner change = null → view_newOwner (view_change change) = None).
Proof. unfold view_change. split; intros ->; done. Qed.


(** * Registration and deregistration *)

Lemma addEventListener_elem type callback s x :
  x ∈ listeners (after (addEventListener type callback s))
  ↔ x ∈ listeners s ∨ x = (type, callback).
Proof.
  unfold addEventListener. run_script. case_bool_decide as Hin.
  - split; [by left|]. by intros [?| ->].
  - rewrite elem_of_app, list_elem_of_singleton. done.
Qed.

Lemma removeEventListener_elem type callback s x :
  x ∈ listeners (after (removeEventListener type callback s))
  ↔ x ∈ listeners s ∧ x ≠ (type, callback).
Proof.
  unfold removeEventListener. run_script.
  rewrite list_elem_of_filter. tauto.
Qed.

(** On an event source without listeners, registration followed by the
    [gameEnd] callback leaves one listener behind. *)
Lemma gameEnd_leaves_playerJailed s winner_id winner_name :
  listeners s = [] →
  listeners (after (onGameEnd winner_id winner_name
                      (after (enableActiveGameListeners s))))
  = [("playerJailed", OnPlayerJailed)].
Proof.
  intros Hs. unfold onGameEnd, gameOver, disableActiveGameListeners,
    enableActiveGameListeners, addEventListener, removeEventListener.
  run_script. rewrite Hs. by vm_compute.
Qed.

(** [C3] Session start registers the seven callbacks.  After a [gameEnd]
    event the callback for [playerJailed] is the one still registered, and a
    [playerJailed] event delivered then still runs it. *)
Theorem playerJailed_survives_gameEnd (data : string) :
  let ended := fst (deliver (GameEnd 1 "Alice") session) in
  listeners session
  = [("playerMove", OnPlayerMove); ("playerTurn", OnPlayerTurn);
     ("playerBalance", OnPlayerBalance); ("playerJailed", OnPlayerJailed);
     ("propertyOwnerChanges", OnPropertyOwnerChanges);
     ("houseEvent", OnHouseEvent); ("gameEnd", OnGameEnd)] ∧
  listeners ended = [("playerJailed", OnPlayerJailed)] ∧
  snd (deliver (PlayerJailed data) ended) = [JailedPlayer data; LogJailEvent data].
Proof. split; [by vm_compute|]. split; by vm_compute. Qed.

(** [C4] An ownership event carrying two transfers, of positions 1 and 3 to
    Bob: the view is handed both rows, but the map records the first
    transfer only; position 3 stays unowned and is offered for purchase to
    the next player landing on it. *)
Theorem only_first_transfer_applied :
  let changes := [mkChange 1 "Old Kent Road" null (Owned 2 "Bob");
                  mkChange 3 "Whitechapel Road" null (Owned 2 "Bob")] in
  let r := deliver (PropertyOwnerChanges changes) session in
  propertyOwners (fst r) !! "1" = Some (Owned 2 "Bob") ∧
  propertyOwners (fst r) !! "3" = Some null ∧
  snd r = [PropertyViewUpdate [mkViewChange "Old Kent Road" None (Some "Bob");
                               mkViewChange "Whitechapel Road" None (Some "Bob")];
           LogPropertyEvent changes] ∧
  EnableBuyPropertyButton (Num 7) 1 3
    ∈ snd (deliver (PlayerMove [mkMove 1 3 0 false]) (fst r)).
Proof.
  split; [by vm_compute|]. split; [by vm_compute|]. split; [by vm_compute|].
  vm_compute. apply elem_of_cons. right. apply elem_of_cons. by left.
Qed.

(** * Concrete runs *)

Lemma animate_reaches_target_witness :
  stops_after moved 1 (Str "1") 3 3 ∧
  snd (ticks 1 3 moved)
  = [MovePlayer (Str "1") 1 (Some "hat.png"); MovePlayer (Str "1") 2 (Some "hat.png");
     MovePlayer (Str "1") 3 (Some "hat.png")].
Proof.
  destruct (animate_reaches_target 1 (Str "1") 3 ltac:(lia) moved 0
              ltac:(repeat split; by vm_compute) ltac:(lia))
    as (Hstop & _ & Hcalls).
  split; [exact Hstop|exact Hcalls].
Defined.

(** A move event whose new position is the cell the token stands on: the
    count [(0 - 0 + 40) mod 40] is 0, yet the animation has not stopped
    after 0 firings; the first firing moves the token to cell 1, the marker
    is still set after 39 firings and is cleared by the 40th. *)
Lemma animate_equal_target_full_lap :
  let s := fst (deliver (PlayerMove [mkMove 1 0 0 false]) session) in
  animating s 1 (Str "1") 0 0 ∧
  (0 - 0 + 40) mod 40 = 0 ∧
  ¬ stops_after s 1 (Str "1") 0 0 ∧
  playerPositions (fst (tick 1 s)) !! "1" = Some (mkPosition 1 (Int 0)) ∧
  snd (tick 1 s) = [MovePlayer (Str "1") 1 (Some "hat.png")] ∧
  currentPlayer (fst (ticks 1 39 s)) = Str "1" ∧
  currentPlayer (fst (ticks 1 40 s)) = Str "".
Proof.
  split; [repeat split; by vm_compute|]. split; [done|].
  split; [|repeat split; by vm_compute].
  intros [(_ & Hmarker & _) _]. vm_compute in Hmarker. discriminate.
Qed.

Lemma jail_in_one_tick_witness :
  snd (tick 1 jail_bound) = [MovePlayer (Str "1") 99 (Some "hat.png")] ∧
  playerPositions jailed_state !! "1" = Some (mkPosition 99 (Int 99)) ∧
  (∀ t, timer jail_bound = Some t → t ∉ intervals jailed_state) ∧
  currentPlayer jailed_state = Str "".
Proof.
  apply (jail_in_one_tick jail_bound 1 (mkPosition 0 (Int 99))); by vm_compute.
Defined.

Lemma completion_is_final_witness :
  let s := fst (ticks 1 2 moved) in
  let s' := fst (tick 1 s) in
  let later := [Tick 1; Invoke OnPlayerTurn (PlayerTurn "{}"); Tick 1] in
  (∀ t, timer s = Some t → t ∉ intervals s') ∧
  currentPlayer s' = Str "" ∧
  playerPositions (run later s') = playerPositions s'.
Proof.
  intros s s' later.
  apply (completion_is_final s 1 (mkPosition 3 (Int 3)) later).
  - by vm_compute.
  - by vm_compute.
  - reflexivity.
  - left. by vm_compute.
  - repeat constructor.
Defined.

Lemma move_from_jail_witness :
  let m := mkMove 1 12 (-1) false in
  let s' := after (onPlayerMove [m] jailed_state) in
  playerPositions jailed_state !! "1" = Some (mkPosition 99 (Int 99)) ∧
  animating s' 2 (Str "1") 9 12 ∧
  snd (tick 2 s') = [MovePlayer (Str "1") 10 (Some "hat.png")].
Proof.
  intros m s'. split; [by vm_compute|].
  destruct (move_from_jail jailed_state m [] (mkPosition 99 (Int 99)))
    as (_ & Hanim & Hfirst); [by vm_compute|reflexivity|].
  split; [exact Hanim|]. apply Hfirst. simpl. lia.
Defined.

Lemma buy_button_iff_witness :
  let m := mkMove 1 3 0 false in
  (∃ g p n, EnableBuyPropertyButton g p n ∈ calls (onPlayerMove [m] session)) ↔
  parseInt (user_id session) = Int 1 ∧
  "3" ∈ dom (propertyOwners session) ∧
  propertyOwners session !! "3" = Some null.
Proof.
  intros m.
  apply (buy_button_iff session m []). exists (mkPosition 0 (Int 0)). by vm_compute.
Defined.

Lemma jailed_flag_unread_witness :
  after (onPlayerMove [mkMove 1 5 0 false] session)
  = after (onPlayerMove [mkMove 1 5 0 true] session).
Proof.
  apply (jailed_flag_unread session [mkMove 1 5 0 false] [mkMove 1 5 0 true]).
  reflexivity.
Defined.

Lemma move_orphans_interval_witness :
  let s' := step (Invoke OnPlayerMove (PlayerMove [mkMove 2 4 0 false])) moved in
  1%positive ∈ intervals moved ∧
  timer moved = Some 1%positive ∧
  timer s' = Some 2%positive ∧
  currentPlayer s' = Str "2" ∧
  ∀ inputs, 1%positive ∈ intervals (run inputs s').
Proof.
  intros s'.
  destruct (move_orphans_interval moved (mkMove 2 4 0 false) [] 1)
    as (Htimer & _ & Hplayer & _ & Hstale).
  - intros h Hin.
    assert (intervals moved = {[1%positive]}) as Hiv by (by vm_compute).
    rewrite Hiv in Hin. apply elem_of_singleton in Hin. subst h. by vm_compute.
  - by vm_compute.
  - exists (mkPosition 0 (Int 0)). by vm_compute.
  - split; [by vm_compute|]. split; [by vm_compute|].
    split; [exact Htimer|]. split; [exact Hplayer|exact Hstale].
Defined.

(** Passing the last cell: from cell 38 to cell 1 in three firings. *)
Example wrap_around :
  let at38 := fst (ticks 1 38 (fst (deliver (PlayerMove [mkMove 1 38 0 false]) session))) in
  let s := fst (deliver (PlayerMove [mkMove 1 1 38 false]) at38) in
  snd (ticks 2 3 s)
  = [MovePlayer (Str "1") 39 (Some "hat.png"); MovePlayer (Str "1") 0 (Some "hat.png");
     MovePlayer (Str "1") 1 (Some "hat.png")] ∧
  currentPlayer (fst (ticks 2 3 s)) = Str "" ∧
  intervals (fst (ticks 2 3 s)) = ∅.
Proof. repeat split; by vm_compute. Qed.

(** * More on the animator *)

(** With a marker that names no player, firings throw and change nothing. *)
Lemma ticks_without_player s h n :
  playerPositions s !! ToString (currentPlayer s) = None →
  ticks h n s = (s, []).
Proof.
  intros Hnone. induction n as [|n IH]; [done|].
  rewrite ticks_S. unfold tick. case_bool_decide.
  - unfold run_callback. rewrite (animate_unknown s Hnone). cbn [after calls].
    by rewrite IH.
  - by rewrite IH.
Qed.

(** [X3] A move event for a player that is not in [playerPositions], arriving
    while an animation is under way: the handler throws after logging, having
    overwritten the marker only.  The interval stays armed, but every later
    firing throws on the unknown player: the token that was moving stays
    where it is, short of its target. *)
Theorem unknown_player_move_freezes s h p c t m rest n :
  animating s h p c t →
  playerPositions s !! pretty (playerID m) = None →
  let r := onPlayerMove (m :: rest) s in
  returned r = None ∧
  calls r = [LogMoveEvent (m :: rest)] ∧
  playerPositions (after r) !! ToString p = Some (mkPosition c (Int t)) ∧
  h ∈ intervals (after r) ∧
  ticks h n (after r) = (after r, []).
Proof.
  intros (Hp & Hpos & Htimer & Hin) Hnone r. subst r.
  rewrite (onPlayerMove_unregistered s m rest Hnone). cbn [returned calls after].
  split; [done|]. split; [done|]. split; [done|]. split; [done|].
  by apply ticks_without_player.
Qed.

(** [X4] A move event whose payload is the empty array, on a page with no
    player of empty id: the handler logs, sets the marker to [''] and throws
    before arming anything; all later firings throw and change nothing. *)
Theorem empty_move_payload s h n :
  playerPositions s !! "" = None →
  let r := onPlayerMove [] s in
  returned r = None ∧
  calls r = [LogMoveEvent []] ∧
  after r = set_currentPlayer (Str "") s ∧
  ticks h n (after r) = (after r, []).
Proof.
  intros Hnone r. subst r. rewrite onPlayerMove_nil, Hnone.
  cbn [returned calls after]. split; [done|]. split; [done|]. split; [done|].
  by apply ticks_without_player.
Qed.

(** [X1] Of a move payload only the first tuple is acted on: with or without
    further tuples the handler returns or throws alike, leaves the same state
    and makes the same calls, the logged payload apart. *)
Theorem move_reads_first_tuple s m rest :
  returned (onPlayerMove (m :: rest) s) = returned (onPlayerMove [m] s) ∧
  after (onPlayerMove (m :: rest) s) = after (onPlayerMove [m] s) ∧
  ∃ others, calls (onPlayerMove (m :: rest) s) = LogMoveEvent (m :: rest) :: others ∧
            calls (onPlayerMove [m] s) = LogMoveEvent [m] :: others.
Proof.
  destruct (playerPositions s !! pretty (playerID m)) as [pos|] eqn:Hpos.
  - rewrite !(onPlayerMove_registered s m _ pos Hpos). cbn [returned after calls]. eauto.
  - rewrite !(onPlayerMove_unregistered s m _ Hpos). cbn [returned after calls]. eauto.
Qed.

(** [X2] For a registered player and a first tuple of safe integers, the
    handler stores, as target, the new position of that tuple as an integer
    (99 for -1), negative or not, and keeps the stored position (9 if the old
    position is -1).  No other player's entry, no token, owner or listener
    changes. *)
Theorem move_changes_mover_only s m rest pos :
  safe_move m →
  playerPositions s !! pretty (playerID m) = Some pos →
  let s' := after (onPlayerMove (m :: rest) s) in
  playerPositions s' !! pretty (playerID m)
  = Some (mkPosition (if bool_decide (oldPosition m = -1) then 9 else current pos)
            (Int (if bool_decide (newPosition m = -1) then 99 else newPosition m))) ∧
  (∀ k, k ≠ pretty (playerID m) → playerPositions s' !! k = playerPositions s !! k) ∧
  playerTokenInformation s' = playerTokenInformation s ∧
  propertyOwners s' = propertyOwners s ∧
  listeners s' = listeners s.
Proof.
  intros _ Hpos s'. subst s'. rewrite (onPlayerMove_registered s m rest pos Hpos).
  cbn [after]. fields. rewrite lookup_insert_eq. split; [done|].
  split; [|done]. intros k Hk. by rewrite lookup_insert_ne.
Qed.

(** A firing changes the stored position of the current player and nothing
    else in the position table. *)
Lemma tick_positions s h :
  playerPositions (fst (tick h s)) = playerPositions s ∨
  ∃ pos c', playerPositions s !! ToString (currentPlayer s) = Some pos ∧
            playerPositions (fst (tick h s))
            = <[ToString (currentPlayer s) := mkPosition c' (end_ pos)]> (playerPositions s) ∧
            (end_ pos = Int 99 ∧ c' = 99 ∨
             end_ pos ≠ Int 99 ∧
             c' = if 39 <? current pos + 1 then current pos + 1 - 40 else current pos + 1).
Proof.
  unfold tick. case_bool_decide; [|by left]. cbn [run_callback fst].
  destruct (playerPositions s !! ToString (currentPlayer s)) as [pos|] eqn:Hpos;
    [|left; by rewrite (animate_unknown s Hpos)].
  right. exists pos.
  destruct (decide (end_ pos = Int 99)) as [Hend|Hend].
  - exists 99. rewrite (animate_jail s pos Hpos Hend). cbn [after]. fields.
    rewrite Hend. eauto.
  - eexists. rewrite (animate_advance s pos Hpos Hend). cbn [after]. fields. eauto.
Qed.

(** [X5] A firing of an interval adds and removes no player, leaves the
    entry of every player but the current one as it is, and changes no
    target, the current player's included. *)
Theorem tick_frame s h :
  let s' := fst (tick h s) in
  dom (playerPositions s') = dom (playerPositions s) ∧
  (∀ k, k ≠ ToString (currentPlayer s) →
        playerPositions s' !! k = playerPositions s !! k) ∧
  (∀ k pos, playerPositions s !! k = Some pos →
            ∃ c', playerPositions s' !! k = Some (mkPosition c' (end_ pos))).
Proof.
  intros s'. subst s'.
  destruct (tick_positions s h) as [->|(pos & c' & Hpos & -> & _)].
  - split; [done|]. split; [done|]. intros k [c e] ->. by exists c.
  - split; [|split].
    + rewrite dom_insert_L. apply elem_of_dom_2 in Hpos.
      apply subseteq_union_1_L. by apply singleton_subseteq_l.
    + intros k Hk. by rewrite lookup_insert_ne.
    + intros k pos0 Hk. destruct (decide (k = ToString (currentPlayer s))) as [->|Hne].
      * rewrite lookup_insert_eq. rewrite Hpos in Hk. injection Hk as ->. by exists c'.
      * rewrite lookup_insert_ne by done. destruct pos0 as [c e]. by exists c.
Qed.

Lemma tick_keeps_on_board s h :
  on_board s → no_jail_target s →
  on_board (fst (tick h s)) ∧ no_jail_target (fst (tick h s)).
Proof.
  intros Hb Hj. unfold on_board, no_jail_target in *.
  destruct (tick_positions s h) as [->|(pos & c' & Hpos & -> & Hc')]; [done|].
  destruct Hc' as [[Hend _]|[_ ->]]; [by destruct (Hj _ _ Hpos)|].
  pose proof (Hb _ _ Hpos) as Hc.
  split; intros k pos0; destruct (decide (k = ToString (currentPlayer s))) as [->|Hne];
    rewrite ?lookup_insert_eq, ?lookup_insert_ne by done.
  - intros [= <-]. cbn [current]. destruct (Z.ltb_spec 39 (current pos + 1)); lia.
  - apply Hb.
  - intros [= <-]. cbn [end_]. by apply (Hj _ _ Hpos).
  - apply Hj.
Qed.

(** [X6] When every stored position is a cell 0..39 and no target is the
    jail value, every stored position is still a cell 0..39 after any number
    of firings. *)
Theorem ticks_stay_on_board s h n :
  on_board s → no_jail_target s → on_board (fst (ticks h n s)).
Proof.
  revert s. induction n as [|n IH]; intros s Hb Hj; [done|].
  rewrite ticks_S. destruct (tick_keeps_on_board s h Hb Hj) as [Hb' Hj'].
  destruct (tick h s) as [s1 c1]. specialize (IH s1 Hb' Hj').
  by destruct (ticks h n s1).
Qed.

(** [X7] A target that is neither a cell 0..39 nor the jail value 99 is never
    reached: from a board cell the token keeps circling, one cell and one
    rendering per firing, with the interval armed and the marker set, for
    any number of firings. *)
Theorem off_board_target_never_reached s h p c t n :
  animating s h p c t → 0 ≤ c ≤ 39 → ¬ (0 ≤ t ≤ 39) → t ≠ 99 →
  animating (fst (ticks h n s)) h p ((c + Z.of_nat n) mod 40) t ∧
  length (snd (ticks h n s)) = n.
Proof.
  intros Hs Hc Ht Hj. induction n as [|n IH].
  - simpl. by rewrite Z.add_0_r, Z.mod_small by lia.
  - rewrite ticks_snoc. destruct (ticks h n s) as [s1 c1]. cbn [fst snd] in IH.
    destruct IH as [(Hp & Hpos & Htimer & Hin) Hlen].
    assert (0 ≤ (c + Z.of_nat n) mod 40 ≤ 39) as Hck by (Z.div_mod_to_equations; lia).
    unfold tick, run_callback. rewrite bool_decide_true by done.
    rewrite <-Hp in Hpos.
    assert (Int t ≠ Int 99) as Hne by (intros Habs; injection Habs; lia).
    rewrite (animate_advance s1 _ Hpos Hne). cbn [current end_ after calls fst snd].
    rewrite (wrap_mod _ Hck), Z.add_mod_idemp_l by lia.
    replace (c + Z.of_nat n + 1) with (c + Z.of_nat (S n)) by lia.
    set (c' := (c + Z.of_nat (S n)) mod 40).
    assert (strict_eq (Int c') (Int t) = false) as ->.
    { apply not_true_is_false. rewrite strict_eq_Int. intros [= Heq].
      subst c'. apply Ht. rewrite <-Heq. Z.div_mod_to_equations. lia. }
    split; [|rewrite length_app; simpl; lia].
    unfold animating. fields. rewrite Hp, lookup_insert_eq. done.
Qed.

(** [X8] A token whose stored position is the jail value 99 and whose target
    is a number other than 99 and 60 (a move event without the old position
    -1): the next firing renders it on cell 60, off the board, and stores
    60; the wrap subtracts 40 once. *)
Theorem jailed_token_without_departure s h pos t :
  h ∈ intervals s →
  playerPositions s !! ToString (currentPlayer s) = Some pos →
  current pos = 99 → end_ pos = Int t → t ≠ 99 → t ≠ 60 →
  let p := currentPlayer s in
  snd (tick h s) = [MovePlayer p 60 (token_in s p)] ∧
  playerPositions (fst (tick h s)) !! ToString p = Some (mkPosition 60 (Int t)) ∧
  currentPlayer (fst (tick h s)) = p ∧
  ¬ on_board (fst (tick h s)).
Proof.
  intros Hin Hpos Hc Hend Ht Ht60 p. subst p. unfold tick, run_callback.
  rewrite bool_decide_true by done.
  assert (end_ pos ≠ Int 99) as Hne by (rewrite Hend; intros Habs; injection Habs; lia).
  rewrite (animate_advance s pos Hpos Hne). cbn [fst snd after calls].
  rewrite Hc, Hend. change (if 39 <? 99 + 1 then 99 + 1 - 40 else 99 + 1) with 60.
  assert (strict_eq (Int 60) (Int t) = false) as ->.
  { apply not_true_is_false. rewrite strict_eq_true.
    intros (z & [= <-] & [= Heq]). lia. }
  fields. rewrite lookup_insert_eq. split; [done|]. split; [done|]. split; [done|].
  intros Hb. specialize (Hb (ToString (currentPlayer s)) (mkPosition 60 (Int t))).
  cbn [playerPositions current] in Hb. rewrite lookup_insert_eq in Hb.
  specialize (Hb eq_refl). lia.
Qed.


(** * Session start *)

(** The loop of [displayBoard] in full: what it calls and what it stores. *)
Lemma displayBoard_loop_spec i players s :
  ∃ s',
    displayBoard_loop i players s
    = mkOutcome (Some ()) s'
        (concat (imap (λ j p,
           [AppendCanvas (pretty p) "content" (pretty (Z.of_nat (i + j) + 2));
            MovePlayer (Num p) 0 (images !! (i + j)%nat)]) players)) ∧
    (∀ p, p ∈ players → playerPositions s' !! pretty p = Some (mkPosition 0 (Int 0))) ∧
    (∀ k, (∀ p, p ∈ players → k ≠ pretty p) →
          playerPositions s' !! k = playerPositions s !! k ∧
          playerTokenInformation s' !! k = playerTokenInformation s !! k) ∧
    (∀ j p, players !! j = Some p → p ∉ drop (S j) players →
            playerTokenInformation s' !! pretty p = Some (images !! (i + j)%nat)) ∧
    propertyOwners s' = propertyOwners s ∧ listeners s' = listeners s ∧
    currentPlayer s' = currentPlayer s ∧ gameID s' = gameID s.
Proof.
  revert i s. induction players as [|p players IH]; intros i s.
  - exists s. split; [done|]. split; [by intros p Hp%elem_of_nil|].
    split; [done|]. split; [by intros j p [=]|done].
  - cbn [displayBoard_loop]. unfold createCanvas, token_of. run_script.
    rewrite lookup_insert_eq. cbn [mbind option_bind].
    match goal with
    | |- context [displayBoard_loop (S i) players ?s1] =>
        destruct (IH (S i) s1) as (s' & -> & Hin & Hout & Htok & Ho & Hl & Hc & Hg)
    end.
    revert Hout Ho Hl Hc Hg. fields. intros Hout Ho Hl Hc Hg.
    run_script. exists s'. split; [|split; [|split; [|split]]].
    + rewrite imap_cons. cbn [concat app]. rewrite Nat.add_0_r.
      do 4 f_equal. apply imap_ext. intros j q _. cbn [compose].
      by replace (i + S j)%nat with (S i + j)%nat by lia.
    + intros q [Heq|Hq]%elem_of_cons; [subst q|by apply Hin].
      destruct (decide (p ∈ players)) as [Hq|Hq]; [by apply Hin|].
      destruct (Hout (pretty p)) as [-> _].
      * intros p' Hp' Heq. apply (inj pretty) in Heq. by subst.
      * by rewrite lookup_insert_eq.
    + intros k Hk. destruct (Hout k) as [-> ->].
      * intros q Hq. apply Hk. by right.
      * rewrite !lookup_insert_ne; [done|..]; intros Heq; by apply (Hk p); [left|].
    + intros [|j] q Hj Hlast.
      * injection Hj as ->. cbn [drop] in Hlast. rewrite Nat.add_0_r.
        destruct (Hout (pretty q)) as [_ ->].
        -- intros p' Hp' Heq. apply (inj pretty) in Heq. by subst.
        -- by rewrite lookup_insert_eq.
      * cbn [lookup list_lookup] in Hj. cbn [drop] in Hlast.
        rewrite (Htok j q Hj Hlast). by replace (i + S j)%nat with (S i + j)%nat by lia.
    + done.
Qed.

(** [X9] [displayBoard] returns; it puts every listed player on cell 0 with
    target 0, whatever was stored for that player before, leaves the entries
    of players that are not listed, and leaves the ownership map. *)
Theorem displayBoard_resets_positions players s :
  let r := displayBoard players s in
  returned r = Some () ∧
  (∀ p, p ∈ players →
        playerPositions (after r) !! pretty p = Some (mkPosition 0 (Int 0))) ∧
  (∀ k, (∀ p, p ∈ players → k ≠ pretty p) →
        playerPositions (after r) !! k = playerPositions s !! k) ∧
  propertyOwners (after r) = propertyOwners s.
Proof.
  intros r. subst r. unfold displayBoard, createCanvas. run_script.
  destruct (displayBoard_loop_spec 0 players s)
    as (s' & -> & Hin & Hout & _ & Ho & _).
  run_script. split; [done|]. split; [done|]. split; [|done].
  intros k Hk. by destruct (Hout k Hk).
Qed.

(** [X10] For a list of distinct players, the player at index [j] gets the
    [j]-th of the four token images, is rendered with it on cell 0, and gets
    the canvas layer [j + 2]; from the fifth player on the token is
    [undefined]. *)
Theorem displayBoard_tokens players s j p :
  NoDup players → players !! j = Some p →
  let r := displayBoard players s in
  token_in (after r) (Num p) = images !! j ∧
  MovePlayer (Num p) 0 (images !! j) ∈ calls r ∧
  AppendCanvas (pretty p) "content" (pretty (Z.of_nat j + 2)) ∈ calls r.
Proof.
  intros Hnd Hj r. subst r. unfold displayBoard, createCanvas. run_script.
  destruct (displayBoard_loop_spec 0 players s)
    as (s' & -> & _ & _ & Htok & _).
  run_script. unfold token_in. cbn [ToString].
  rewrite (Htok j p Hj).
  - split; [done|].
    pose proof (elem_of_lookup_imap_2
      (λ j p, [AppendCanvas (pretty p) "content" (pretty (Z.of_nat (0 + j) + 2));
               MovePlayer (Num p) 0 (images !! (0 + j)%nat)]) players p j Hj) as Hpair.
    cbn beta in Hpair. rewrite Nat.add_0_l in Hpair.
    apply list_elem_of_In in Hpair.
    split; do 2 (apply elem_of_cons; right); apply elem_of_app; left;
      apply list_elem_of_In, in_concat; eexists; (split; [exact Hpair|]);
      apply list_elem_of_In.
    + apply elem_of_cons. right. apply elem_of_cons. by left.
    + apply elem_of_cons. by left.
  - intros Hin. apply list_elem_of_lookup in Hin as [j' Hj'].
    rewrite lookup_drop in Hj'.
    pose proof (NoDup_lookup _ _ _ _ Hnd Hj Hj'). lia.
Qed.

(** The loop of [activeGame] over the property positions. *)
Lemma activeGame_loop_spec (l : list Z) s :
  for_each (λ p : Z, modify (set_propertyOwners (<[pretty p := null]>))) l s
  = mkOutcome (Some ())
      (set_propertyOwners (λ m, foldl (λ m p, <[pretty p := null]> m) m l) s) [].
Proof.
  revert s. induction l as [|p l IH]; intros s.
  - cbn [for_each foldl]. run_script. f_equal. apply State_eq; by fields.
  - cbn [for_each foldl]. unfold mbind at 1, Script_bind at 1.
    unfold modify at 1. rewrite IH. reflexivity.
Qed.

Lemma foldl_install_lookup (l : list Z) (m : gmap string Owner) k :
  foldl (λ m p, <[pretty p := null]> m) m l !! k
  = if bool_decide (k ∈ (pretty <$> l)) then Some null else m !! k.
Proof.
  revert m. induction l as [|p l IH]; intros m; [done|].
  cbn [foldl fmap list_fmap]. rewrite IH.
  destruct (decide (k ∈ pretty <$> l)) as [Hin|Hout].
  - rewrite !bool_decide_true; [done|by right|done].
  - rewrite (bool_decide_false _ Hout).
    destruct (decide (k = pretty p)) as [->|Hne].
    + rewrite lookup_insert_eq, bool_decide_true; [done|by left].
    + rewrite lookup_insert_ne by done. rewrite bool_decide_false; [done|].
      by intros [?|?]%elem_of_cons.
Qed.

Lemma activeGame_spec players startEvent s :
  ∃ s' c,
    activeGame players startEvent s = mkOutcome (Some ()) s' c ∧
    gameID s' = Num (start_gameID startEvent) ∧
    propertyOwners s'
    = foldl (λ m p, <[pretty p := null]> m) (propertyOwners s)
        (propertyPositions startEvent) ∧
    listeners s' = listeners s ∧
    (∀ p, p ∈ players → playerPositions s' !! pretty p = Some (mkPosition 0 (Int 0))).
Proof.
  unfold activeGame, displayBoard, createCanvas.
  unfold mbind at 1, Script_bind at 1. unfold modify at 1.
  unfold mbind at 1, Script_bind at 1. rewrite activeGame_loop_spec.
  run_script.
  match goal with
  | |- context [displayBoard_loop 0 players ?s1] =>
      destruct (displayBoard_loop_spec 0 players s1)
        as (s' & -> & Hpos & _ & _ & Ho & Hl & _ & Hg)
  end.
  revert Ho Hl Hg. fields. intros Ho Hl Hg. run_script.
  eexists _, _. split; [reflexivity|]. done.
Qed.

(** [X11] [activeGame] returns with the game id stored and every listed
    property position unowned, also one that had an owner; keys of positions
    that are not listed keep the owner they had (the map is never emptied),
    and no listener is added before the callback runs. *)
Theorem activeGame_installs_owners players startEvent s :
  let r := activeGame players startEvent s in
  returned r = Some () ∧
  gameID (after r) = Num (start_gameID startEvent) ∧
  (∀ p, p ∈ propertyPositions startEvent →
        propertyOwners (after r) !! pretty p = Some null) ∧
  (∀ k, k ∉ (pretty <$> propertyPositions startEvent) →
        propertyOwners (after r) !! k = propertyOwners s !! k) ∧
  listeners (after r) = listeners s.
Proof.
  intros r. subst r.
  destruct (activeGame_spec players startEvent s) as (s' & c & -> & Hg & Ho & Hl & _).
  cbn [returned after]. rewrite Ho.
  split; [done|]. split; [done|]. split; [|split; [|done]].
  - intros p Hp. rewrite foldl_install_lookup, bool_decide_true; [done|].
    by apply list_elem_of_fmap_2.
  - intros k Hk. by rewrite foldl_install_lookup, bool_decide_false.
Qed.

(** * More on registration *)

Lemma addEventListener_present type callback s :
  (type, callback) ∈ listeners s →
  addEventListener type callback s = mkOutcome (Some ()) s [].
Proof.
  intros Hin. unfold addEventListener. run_script. f_equal.
  apply State_eq; fields; try done. by rewrite bool_decide_true.
Qed.

Lemma enableActiveGameListeners_elem s x :
  x ∈ listeners (after (enableActiveGameListeners s))
  ↔ x ∈ listeners s ∨
    x ∈ [("playerMove", OnPlayerMove); ("playerTurn", OnPlayerTurn);
         ("playerBalance", OnPlayerBalance); ("playerJailed", OnPlayerJailed);
         ("propertyOwnerChanges", OnPropertyOwnerChanges);
         ("houseEvent", OnHouseEvent); ("gameEnd", OnGameEnd)].
Proof.
  change (after (enableActiveGameListeners s)) with
    (after (addEventListener "gameEnd" OnGameEnd
     (after (addEventListener "houseEvent" OnHouseEvent
     (after (addEventListener "propertyOwnerChanges" OnPropertyOwnerChanges
     (after (addEventListener "playerJailed" OnPlayerJailed
     (after (addEventListener "playerBalance" OnPlayerBalance
     (after (addEventListener "playerTurn" OnPlayerTurn
     (after (addEventListener "playerMove" OnPlayerMove s)))))))))))))).
  rewrite !addEventListener_elem, !elem_of_cons, elem_of_nil. tauto.
Qed.

(** [X12] Registering the callbacks a second time changes nothing: no
    callback is on the event source twice. *)
Theorem enableActiveGameListeners_idempotent s :
  let s1 := after (enableActiveGameListeners s) in
  enableActiveGameListeners s1 = mkOutcome (Some ()) s1 [].
Proof.
  intros s1. unfold enableActiveGameListeners at 1.
  assert (∀ x, x ∈ [("playerMove", OnPlayerMove); ("playerTurn", OnPlayerTurn);
                    ("playerBalance", OnPlayerBalance); ("playerJailed", OnPlayerJailed);
                    ("propertyOwnerChanges", OnPropertyOwnerChanges);
                    ("houseEvent", OnHouseEvent); ("gameEnd", OnGameEnd)]
               → x ∈ listeners s1) as Hall.
  { intros x Hx. apply enableActiveGameListeners_elem. by right. }
  unfold mbind, Script_bind.
  rewrite !addEventListener_present
    by (apply Hall; rewrite !elem_of_cons; tauto).
  reflexivity.
Qed.

(** * Delivery *)

(** [X13] On an event source holding the seven listeners of a session, each
    delivered event runs exactly one callback, the one registered under its
    name, which is the one that reads its payload. *)
Theorem deliver_runs_one_callback s e :
  listeners s
  = [("playerMove", OnPlayerMove); ("playerTurn", OnPlayerTurn);
     ("playerBalance", OnPlayerBalance); ("playerJailed", OnPlayerJailed);
     ("propertyOwnerChanges", OnPropertyOwnerChanges);
     ("houseEvent", OnHouseEvent); ("gameEnd", OnGameEnd)] →
  ∃ h, registered (event_name e) s = [h] ∧
       deliver e s = run_callback (run_handler h e) s ∧
       match h, e with
       | OnPlayerMove, PlayerMove _ | OnPlayerTurn, PlayerTurn _
       | OnPlayerBalance, PlayerBalance _ | OnPlayerJailed, PlayerJailed _
       | OnPropertyOwnerChanges, PropertyOwnerChanges _
       | OnHouseEvent, HouseEvent _ | OnGameEnd, GameEnd _ _ => True
       | _, _ => False
       end.
Proof.
  intros Hl.
  assert (∀ h, registered (event_name e) s = [h] →
               deliver e s = run_callback (run_handler h e) s) as Hone.
  { intros h Hh. unfold deliver. rewrite Hh. cbn [deliver_to].
    rewrite bool_decide_true.
    - destruct (run_callback (run_handler h e) s) as [s1 c1]. by rewrite app_nil_r.
    - assert (h ∈ registered (event_name e) s) as Hin by (rewrite Hh; by left).
      unfold registered in Hin. apply list_elem_of_fmap in Hin as ([n h'] & -> & Hin).
      apply list_elem_of_filter in Hin as [Hn Hin]. cbn [fst snd] in *. by subst n. }
  destruct e; eexists; (split; [unfold registered; rewrite Hl; by vm_compute|]);
    (split; [apply Hone; unfold registered; rewrite Hl; by vm_compute|done]).
Qed.

(** [X14] After registration on an event source without listeners and a
    [gameEnd] event, the delivery of any event but [playerJailed] runs no
    callback and changes nothing. *)
Theorem silent_after_gameEnd s winner_id winner_name e :
  listeners s = [] →
  event_name e ≠ "playerJailed" →
  let ended := after (onGameEnd winner_id winner_name
                        (after (enableActiveGameListeners s))) in
  deliver e ended = (ended, []).
Proof.
  intros Hs He ended. unfold deliver, registered.
  unfold ended. rewrite (gameEnd_leaves_playerJailed s _ _ Hs).
  rewrite filter_cons_False by (cbn [fst]; congruence). done.
Qed.

(** * Game end and the animation *)

(** [X15] The [gameEnd] callback cancels no interval: an animation under way
    is still under way after it, with its interval armed. *)
Theorem gameEnd_keeps_animation s h p c t winner_id winner_name :
  animating s h p c t →
  let r := onGameEnd winner_id winner_name s in
  returned r = Some () ∧
  animating (after r) h p c t ∧
  intervals (after r) = intervals s.
Proof.
  intros (Hp & Hpos & Htimer & Hin) r. subst r.
  destruct (other_handlers_frame OnGameEnd (GameEnd winner_id winner_name) s)
    as (Hpp & Hcp & Ht & Hi & _); [done|].
  cbn [run_handler] in *. split; [done|]. split; [|done].
  unfold animating. by rewrite Hpp, Hcp, Ht, Hi.
Qed.

(** * Ownership events in sequence *)

Lemma onPropertyOwnerChanges_owners s c rest :
  propertyOwners (after (onPropertyOwnerChanges (c :: rest) s))
  = <[pretty (property_position c) := newOwner c]> (propertyOwners s).
Proof.
  unfold onPropertyOwnerChanges.
  change ((c :: rest) !! 0%nat) with (Some c). run_script.
  destruct (propertyView s) eqn:Hv; run_script; rewrite ?Hv; run_script; by fields.
Qed.



(** [X16] Two ownership events whose first changes are for the same position:
    the map after both is the map after the second alone. *)
Theorem ownership_last_change_wins s c1 rest1 c2 rest2 :
  property_position c1 = property_position c2 →
  propertyOwners (after (onPropertyOwnerChanges (c2 :: rest2)
                           (after (onPropertyOwnerChanges (c1 :: rest1) s))))
  = propertyOwners (after (onPropertyOwnerChanges (c2 :: rest2) s)).
Proof.
  intros Heq. rewrite !onPropertyOwnerChanges_owners, Heq. apply insert_insert_eq.
Qed.

(** [X17] Two ownership events whose first changes are for different
    positions give the same map in either order. *)
Theorem ownership_changes_commute s c1 rest1 c2 rest2 :
  property_position c1 ≠ property_position c2 →
  propertyOwners (after (onPropertyOwnerChanges (c2 :: rest2)
                           (after (onPropertyOwnerChanges (c1 :: rest1) s))))
  = propertyOwners (after (onPropertyOwnerChanges (c1 :: rest1)
                             (after (onPropertyOwnerChanges (c2 :: rest2) s)))).
Proof.
  intros Hne. rewrite !onPropertyOwnerChanges_owners.
  apply insert_insert_ne. intros Heq. by apply Hne, (inj pretty).
Qed.

(** * Buildings *)

Lemma for_each_fold {A} (body : A → Script unit)
    (step : A → State → State) (out : A → list Effect) l s :
  (∀ x s, body x s = mkOutcome (Some ()) (step x s) (out x)) →
  for_each body l s
  = mkOutcome (Some ()) (foldl (λ s x, step x s) s l) (concat (map out l)).
Proof.
  intros Hbody. revert s. induction l as [|x l IH]; intros s; [done|].
  cbn [for_each foldl map concat]. unfold mbind, Script_bind.
  by rewrite Hbody, IH.
Qed.

Lemma onHouseEvent_spec buildings s :
  ∃ s' c,
    onHouseEvent buildings s
    = mkOutcome (Some ()) s' (c ++ [DisplayBuildings (currentHouses s') (currentHotels s')]) ∧
    length c = (3 * length buildings)%nat ∧
    currentHouses s'
    = foldl (λ m kv, <[pretty kv.1 := houses kv.2]> m) (currentHouses s) buildings ∧
    currentHotels s'
    = foldl (λ m kv, <[pretty kv.1 := hotels kv.2]> m) (currentHotels s) buildings ∧
    propertyOwners s' = propertyOwners s ∧ playerPositions s' = playerPositions s.
Proof.
  unfold onHouseEvent. unfold mbind at 1, Script_bind at 1.
  rewrite (for_each_fold _
    (λ kv s0, set_currentHotels (<[pretty kv.1 := hotels kv.2]>)
                (set_currentHouses (<[pretty kv.1 := houses kv.2]>) s0))
    (λ kv, [ConsoleLog ("Position:" +:+ pretty kv.1);
            ConsoleLog ("Houses:" +:+ pretty (houses kv.2));
            ConsoleLog ("Hotels:" +:+ pretty (hotels kv.2))]))
    by (intros kv s0; run_script; reflexivity).
  run_script. eexists _, _. split; [reflexivity|].
  split.
  { induction buildings as [|kv l IH]; [done|]. cbn [map concat length app]. lia. }
  generalize s. induction buildings as [|kv l IH]; intros s0; [done|].
  cbn [foldl]. destruct (IH (set_currentHotels (<[pretty kv.1 := hotels kv.2]>)
                (set_currentHouses (<[pretty kv.1 := houses kv.2]>) s0)))
    as (-> & -> & -> & ->). by fields.
Qed.

Lemma foldl_counts_lookup (f : Building → Z) (l : list (Z * Building)) (m : gmap string Z) :
  (∀ k, k ∉ (pretty <$> l.*1) →
        foldl (λ m kv, <[pretty kv.1 := f kv.2]> m) m l !! k = m !! k) ∧
  (NoDup l.*1 → ∀ k b, (k, b) ∈ l →
        foldl (λ m kv, <[pretty kv.1 := f kv.2]> m) m l !! pretty k = Some (f b)).
Proof.
  revert m. induction l as [|[k0 b0] l IH]; intros m.
  - split; [done|]. by intros _ k b Hin%elem_of_nil.
  - cbn [foldl fmap list_fmap fst snd]. destruct (IH (<[pretty k0 := f b0]> m)) as [IH1 IH2].
    split.
    + intros k Hk. rewrite IH1 by (intros ?; apply Hk; by right).
      rewrite lookup_insert_ne; [done|]. intros <-. apply Hk. by left.
    + intros [Hk0 Hnd]%NoDup_cons k b [[= -> ->]|Hin]%elem_of_cons.
      * rewrite IH1; [by rewrite lookup_insert_eq|].
        intros (k' & Heq%(inj pretty) & Hk')%list_elem_of_fmap. by subst.
      * by apply IH2.
Qed.

(** [X18] A building event returns; every position of the payload gets the
    house and hotel counts of its entry, the counts of other positions stay
    as they were, three lines are logged per position, and the last call
    hands the updated tables to [displayBuildings]. *)
Theorem houseEvent_updates_counts buildings s :
  NoDup buildings.*1 →
  let r := onHouseEvent buildings s in
  returned r = Some () ∧
  (∀ k b, (k, b) ∈ buildings →
          currentHouses (after r) !! pretty k = Some (houses b) ∧
          currentHotels (after r) !! pretty k = Some (hotels b)) ∧
  (∀ k, k ∉ (pretty <$> buildings.*1) →
        currentHouses (after r) !! k = currentHouses s !! k ∧
        currentHotels (after r) !! k = currentHotels s !! k) ∧
  last (calls r) = Some (DisplayBuildings (currentHouses (after r)) (currentHotels (after r))) ∧
  length (calls r) = (3 * length buildings + 1)%nat.
Proof.
  intros Hnd r. subst r.
  destruct (onHouseEvent_spec buildings s) as (s' & c & -> & Hlen & Hh & Ht & _).
  cbn [returned after calls]. rewrite Hh, Ht.
  destruct (foldl_counts_lookup houses buildings (currentHouses s)) as [Hh1 Hh2].
  destruct (foldl_counts_lookup hotels buildings (currentHotels s)) as [Ht1 Ht2].
  split; [done|]. split; [|split; [|split]].
  - intros k b Hin. split; [by apply Hh2|by apply Ht2].
  - intros k Hk. split; [by apply Hh1|by apply Ht1].
  - by rewrite last_snoc.
  - rewrite length_app, Hlen. simpl. lia.
Qed.

(** * Stored players *)

Lemma safe_integer_0 : safe_integer 0.
Proof. by split. Qed.

Lemma safe_integer_99 : safe_integer 99.
Proof. by split. Qed.

Lemma players_wellformed_insert s (z : Z) c t :
  players_wellformed s →
  safe_integer z → safe_integer t →
  is_Some (playerTokenInformation s !! pretty z) →
  ∀ s', playerPositions s' = <[pretty z := mkPosition c (Int t)]> (playerPositions s) →
        playerTokenInformation s' = playerTokenInformation s →
        players_wellformed s'.
Proof.
  intros Hs Hz Ht Htok s' Hp Hti k pos. rewrite Hp, Hti.
  destruct (decide (k = pretty z)) as [->|Hne].
  - rewrite lookup_insert_eq. intros [= <-].
    split; [by exists z|]. split; [by exists t|done].
  - rewrite lookup_insert_ne by done. apply Hs.
Qed.

Lemma players_wellformed_same s s' :
  players_wellformed s →
  playerPositions s' = playerPositions s →
  playerTokenInformation s' = playerTokenInformation s →
  players_wellformed s'.
Proof. intros Hs Hp Hti k pos. rewrite Hp, Hti. apply Hs. Qed.

Lemma displayBoard_loop_wellformed i players s :
  Forall safe_integer players →
  players_wellformed s → players_wellformed (after (displayBoard_loop i players s)).
Proof.
  intros Hsafe. revert i s.
  induction Hsafe as [|p players Hp _ IH]; intros i s Hs; [done|].
  cbn [displayBoard_loop]. unfold createCanvas, token_of. run_script.
  match goal with
  | |- context [displayBoard_loop (S i) players ?s1] =>
      specialize (IH (S i) s1);
      destruct (displayBoard_loop_spec (S i) players s1) as (s' & Heq & _)
  end.
  rewrite Heq in IH |- *. run_script. cbn [after] in IH. apply IH.
  intros k pos. fields. destruct (decide (k = pretty p)) as [->|Hne].
  - rewrite !lookup_insert_eq. intros [= <-].
    split; [by exists p|]. split; [|done]. exists 0. split; [apply safe_integer_0|done].
  - rewrite !lookup_insert_ne by done. apply Hs.
Qed.

Lemma startSession_wellformed players startEvent s :
  Forall safe_integer players →
  players_wellformed s →
  players_wellformed (after (startSession players startEvent s)).
Proof.
  intros Hsafe Hs.
  unfold startSession, activeGame, activeGame_callback, displayBoard,
    enableActiveGameListeners, addEventListener, createCanvas.
  unfold mbind at 1, Script_bind at 1. unfold mbind at 1, Script_bind at 1.
  unfold modify at 1. unfold mbind at 1, Script_bind at 1.
  rewrite activeGame_loop_spec. run_script.
  match goal with
  | |- context [displayBoard_loop 0 players ?s1] =>
      pose proof (displayBoard_loop_wellformed 0 players s1 Hsafe) as Hloop;
      destruct (displayBoard_loop_spec 0 players s1) as (s' & Heq & _)
  end.
  rewrite Heq in Hloop |- *. cbn [after] in Hloop. run_script.
  eapply players_wellformed_same; [apply Hloop|by fields..].
  by eapply players_wellformed_same.
Qed.

Lemma other_handlers_tokens h e s :
  h ≠ OnPlayerMove →
  playerTokenInformation (after (run_handler h e s)) = playerTokenInformation s.
Proof.
  intros Hh. destruct h, e; try done; cbn [run_handler].
  - unfold onPropertyOwnerChanges.
    destruct changes as [|c changes]; [done|].
    change ((c :: changes) !! 0%nat) with (Some c). run_script.
    destruct (propertyView s) eqn:Hv; run_script; rewrite ?Hv; run_script; by fields.
  - unfold onHouseEvent. unfold mbind at 1, Script_bind at 1.
    rewrite (for_each_fold _
      (λ kv s0, set_currentHotels (<[pretty kv.1 := hotels kv.2]>)
                  (set_currentHouses (<[pretty kv.1 := houses kv.2]>) s0))
      (λ kv, [ConsoleLog ("Position:" +:+ pretty kv.1);
              ConsoleLog ("Houses:" +:+ pretty (houses kv.2));
              ConsoleLog ("Hotels:" +:+ pretty (hotels kv.2))]))
      by (intros kv s0; run_script; reflexivity).
    run_script. generalize s. induction buildings as [|kv l IH]; intros s0; [done|].
    cbn [foldl]. rewrite IH. by fields.
Qed.

Lemma step_wellformed i s :
  safe_input i → players_wellformed s → players_wellformed (step i s).
Proof.
  intros Hi Hs.
  assert (playerPositions s !! "" = None) as Hnone.
  { destruct (playerPositions s !! "") as [pos|] eqn:Hp; [|done].
    destruct (Hs _ _ Hp) as ((z & _ & Hz) & _). by destruct (pretty_nonempty z). }
  destruct i as [h|hd e]; cbn [step].
  - unfold tick. case_bool_decide; [|done]. cbn [run_callback fst].
    destruct (playerPositions s !! ToString (currentPlayer s)) as [pos|] eqn:Hpos;
      [|by rewrite (animate_unknown s Hpos)].
    destruct (Hs _ _ Hpos) as ((z & Hsz & Hz) & (t & Hst & Ht) & Htok).
    destruct (decide (end_ pos = Int 99)) as [Hend|Hend].
    + rewrite (animate_jail s pos Hpos Hend). cbn [after].
      rewrite Hz in *.
      by eapply (players_wellformed_insert s z 99 99 Hs Hsz safe_integer_99 Htok).
    + rewrite (animate_advance s pos Hpos Hend). cbn [after].
      rewrite Hz, Ht in *.
      by eapply (players_wellformed_insert s z _ t Hs Hsz Hst Htok).
  - cbn [run_callback fst]. destruct (decide (hd = OnPlayerMove)) as [->|Hh].
    + destruct e; cbn [run_handler]; try done.
      destruct moves as [|m rest].
      * rewrite onPlayerMove_nil, Hnone. done.
      * apply Forall_cons in Hi as [(Hid & Hnew & _) _].
        destruct (playerPositions s !! pretty (playerID m)) as [pos|] eqn:Hpos.
        -- rewrite (onPlayerMove_registered s m rest pos Hpos). cbn [after].
           destruct (Hs _ _ Hpos) as (_ & _ & Htok).
           eapply (players_wellformed_insert s (playerID m) _ _ Hs Hid); [|done..].
           case_bool_decide; [apply safe_integer_99|done].
        -- by rewrite (onPlayerMove_unregistered s m rest Hpos).
    + destruct (other_handlers_frame hd e s Hh) as (Hp & _).
      eapply players_wellformed_same; [done|done|by apply other_handlers_tokens].
Qed.

(** [X20] In every state of a page whose sessions start with safe player
    ids and whose move events carry safe ids and positions, each stored
    player is keyed by the decimal form of a safe integer, has a safe
    integer as target (never [NaN]) and has a token entry. *)
Theorem reachable_players_wellformed s : reachable_safe s → players_wellformed s.
Proof.
  induction 1 as [uid|players startEvent s Hsafe _ IH|i s Hsafe _ IH].
  - intros k pos Hk. unfold initial in Hk. cbn [playerPositions] in Hk.
    by rewrite lookup_empty in Hk.
  - by apply startSession_wellformed.
  - by apply step_wellformed.
Qed.

(** * Concrete runs, continued *)

Lemma move_changes_mover_only_witness :
  let s' := after (onPlayerMove [mkMove 1 (-1) 3 false] moved) in
  playerPositions s' !! "1" = Some (mkPosition 0 (Int 99)) ∧
  playerPositions s' !! "2" = playerPositions moved !! "2".
Proof.
  intros s'.
  destruct (move_changes_mover_only moved (mkMove 1 (-1) 3 false) []
              (mkPosition 0 (Int 3)) ltac:(by vm_compute) ltac:(by vm_compute))
    as (Hmover & Hothers & _).
  split; [exact Hmover|]. apply Hothers. by vm_compute.
Defined.

Lemma unknown_player_move_freezes_witness :
  let r := onPlayerMove [mkMove 5 7 0 false] moved in
  returned r = None ∧ ticks 1 10 (after r) = (after r, []).
Proof.
  intros r.
  destruct (unknown_player_move_freezes moved 1 (Str "1") 0 3 (mkMove 5 7 0 false) [] 10
              ltac:(repeat split; by vm_compute) ltac:(by vm_compute))
    as (Hthrow & _ & _ & _ & Hfrozen).
  split; [exact Hthrow|exact Hfrozen].
Defined.

Lemma empty_move_payload_witness :
  returned (onPlayerMove [] moved) = None ∧
  ticks 1 10 (after (onPlayerMove [] moved)) = (after (onPlayerMove [] moved), []).
Proof.
  destruct (empty_move_payload moved 1 10 ltac:(by vm_compute))
    as (Hthrow & _ & _ & Hfrozen).
  split; [exact Hthrow|exact Hfrozen].
Defined.

Lemma tick_frame_witness :
  playerPositions (fst (tick 1 moved)) !! "2" = playerPositions moved !! "2".
Proof. apply (tick_frame moved 1). by vm_compute. Defined.

Lemma ticks_stay_on_board_witness : on_board (fst (ticks 1 2 session)) ∧ on_board (fst (ticks 1 2 moved)).
Proof.
  assert (∀ s, playerPositions s = <["1" := mkPosition 0 (Int 3)]> (<["2" := mkPosition 0 (Int 0)]> ∅)
               ∨ playerPositions s = <["1" := mkPosition 0 (Int 0)]> (<["2" := mkPosition 0 (Int 0)]> ∅)
               → on_board s ∧ no_jail_target s) as Hok.
  { intros s Hs. split; intros k pos Hk; destruct Hs as [Hs|Hs]; rewrite Hs in Hk;
      repeat (apply lookup_insert_Some in Hk as [[_ <-]|[_ Hk]]; [simpl; (lia || done)|]);
      by rewrite lookup_empty in Hk. }
  split.
  - apply (ticks_stay_on_board session 1 2); apply Hok; right; by vm_compute.
  - apply (ticks_stay_on_board moved 1 2); apply Hok; left; by vm_compute.
Defined.

Lemma off_board_target_never_reached_witness :
  let s := fst (deliver (PlayerMove [mkMove 1 40 0 false]) session) in
  animating (fst (ticks 1 80 s)) 1 (Str "1") 0 40.
Proof.
  intros s.
  apply (off_board_target_never_reached s 1 (Str "1") 0 40 80); try lia.
  repeat split; by vm_compute.
Defined.

Lemma jailed_token_without_departure_witness :
  let s := fst (deliver (PlayerMove [mkMove 1 12 10 false]) jailed_state) in
  snd (tick 2 s) = [MovePlayer (Str "1") 60 (Some "hat.png")].
Proof.
  intros s.
  apply (jailed_token_without_departure s 2 (mkPosition 99 (Int 12)) 12);
    try (by vm_compute); lia.
Defined.

Lemma displayBoard_resets_positions_witness :
  playerPositions (after (displayBoard [1; 2] jailed_state)) !! "1"
  = Some (mkPosition 0 (Int 0)).
Proof.
  destruct (displayBoard_resets_positions [1; 2] jailed_state) as (_ & Hin & _).
  exact (Hin 1 ltac:(apply elem_of_cons; by left)).
Defined.

Lemma displayBoard_tokens_witness :
  token_in (after (displayBoard [7; 8; 9; 10; 11] (initial (Str "7")))) (Num 11) = None ∧
  token_in (after (displayBoard [7; 8; 9; 10; 11] (initial (Str "7")))) (Num 8)
  = Some "car.png".
Proof.
  split.
  - apply (displayBoard_tokens [7; 8; 9; 10; 11] (initial (Str "7")) 4 11);
      [|reflexivity].
    apply (bool_decide_unpack _). by vm_compute.
  - apply (displayBoard_tokens [7; 8; 9; 10; 11] (initial (Str "7")) 1 8);
      [|reflexivity].
    apply (bool_decide_unpack _). by vm_compute.
Defined.

Lemma activeGame_installs_owners_witness :
  let owned := after (onPropertyOwnerChanges
                        [mkChange 3 "Whitechapel Road" null (Owned 2 "Bob");
                         mkChange 5 "Kings Cross" null (Owned 2 "Bob")] session) in
  let owned5 := after (onPropertyOwnerChanges
                         [mkChange 5 "Kings Cross" null (Owned 2 "Bob")] owned) in
  let restarted := after (activeGame [1; 2] (mkStartEvent 8 [1; 3; 6]) owned5) in
  propertyOwners owned5 !! "3" = Some (Owned 2 "Bob") ∧
  propertyOwners restarted !! "3" = Some null ∧
  propertyOwners restarted !! "5" = Some (Owned 2 "Bob").
Proof.
  intros owned owned5 restarted. split; [by vm_compute|].
  destruct (activeGame_installs_owners [1; 2] (mkStartEvent 8 [1; 3; 6]) owned5)
    as (_ & _ & Hin & Hout & _).
  split.
  - exact (Hin 3 ltac:(apply elem_of_cons; right; apply elem_of_cons; by left)).
  - unfold restarted. rewrite (Hout "5"); [by vm_compute|].
    apply (bool_decide_unpack _). by vm_compute.
Defined.

Lemma deliver_runs_one_callback_witness :
  ∃ h, deliver (PlayerTurn "{}") session = run_callback (run_handler h (PlayerTurn "{}")) session.
Proof.
  destruct (deliver_runs_one_callback session (PlayerTurn "{}") ltac:(by vm_compute))
    as (h & _ & Hd & _).
  by exists h.
Defined.

Lemma silent_after_gameEnd_witness :
  let ended := after (onGameEnd 1 "Alice"
                        (after (enableActiveGameListeners (initial (Str "1"))))) in
  deliver (PlayerMove [mkMove 1 3 0 false]) ended = (ended, []).
Proof.
  apply (silent_after_gameEnd (initial (Str "1")) 1 "Alice" (PlayerMove [mkMove 1 3 0 false]));
    [reflexivity|discriminate].
Defined.

Lemma gameEnd_keeps_animation_witness :
  animating (after (onGameEnd 2 "Bob" moved)) 1 (Str "1") 0 3.
Proof.
  apply (gameEnd_keeps_animation moved 1 (Str "1") 0 3 2 "Bob").
  repeat split; by vm_compute.
Defined.

Lemma ownership_last_change_wins_witness :
  let c1 := mkChange 3 "Whitechapel Road" null (Owned 2 "Bob") in
  let c2 := mkChange 3 "Whitechapel Road" (Owned 2 "Bob") null in
  propertyOwners (after (onPropertyOwnerChanges [c2]
                           (after (onPropertyOwnerChanges [c1] session))))
  = propertyOwners (after (onPropertyOwnerChanges [c2] session)).
Proof.
  intros c1 c2. apply (ownership_last_change_wins session c1 [] c2 []). reflexivity.
Defined.

Lemma ownership_changes_commute_witness :
  let c1 := mkChange 1 "Old Kent Road" null (Owned 1 "Alice") in
  let c2 := mkChange 3 "Whitechapel Road" null (Owned 2 "Bob") in
  propertyOwners (after (onPropertyOwnerChanges [c2]
                           (after (onPropertyOwnerChanges [c1] session))))
  = propertyOwners (after (onPropertyOwnerChanges [c1]
                             (after (onPropertyOwnerChanges [c2] session)))).
Proof.
  intros c1 c2. apply (ownership_changes_commute session c1 [] c2 []). simpl. lia.
Defined.

Lemma houseEvent_updates_counts_witness :
  let r := onHouseEvent [(1, mkBuilding 2 0); (3, mkBuilding 0 1)] session in
  currentHouses (after r) !! "1" = Some 2 ∧ currentHotels (after r) !! "3" = Some 1.
Proof.
  intros r.
  destruct (houseEvent_updates_counts [(1, mkBuilding 2 0); (3, mkBuilding 0 1)] session)
    as (_ & Hin & _).
  { apply (bool_decide_unpack _). by vm_compute. }
  split.
  - exact (proj1 (Hin 1 (mkBuilding 2 0) ltac:(apply elem_of_cons; by left))).
  - exact (proj2 (Hin 3 (mkBuilding 0 1)
                    ltac:(apply elem_of_cons; right; apply elem_of_cons; by left))).
Defined.

Lemma reachable_invariants_witness :
  handles_allocated moved ∧ playerPositions moved !! "" = None.
Proof.
  apply (reachable_invariants moved).
  apply (reachable_step (Invoke OnPlayerMove (PlayerMove [mkMove 1 3 0 false])) session).
  apply (reachable_start [1; 2] (mkStartEvent 7 [1; 3; 6]) (initial (Str "1"))).
  apply reachable_load.
Defined.

Lemma reachable_players_wellformed_witness :
  reachable_safe moved ∧ players_wellformed moved.
Proof.
  assert (reachable_safe moved) as Hmoved.
  { apply (reachable_safe_step
             (Invoke OnPlayerMove (PlayerMove [mkMove 1 3 0 false])) session).
    - repeat constructor.
    - apply (reachable_safe_start [1; 2] (mkStartEvent 7 [1; 3; 6])
               (initial (Str "1"))); [repeat constructor|].
      apply reachable_safe_load. }
  split; [exact Hmoved|]. apply (reachable_players_wellformed moved Hmoved).
Defined.

